(** * Note-path resolution of the Trilium client (services/tree.js)

    A shallow embedding of the path functions of [tree.js]
    ([resolveNotePath], [resolveNotePathToSegments], [getSomeNotePath],
    [getNoteIdAndParentIdFromNotePath] and the websocket subscriber) and
    the properties the specification states about them; then of the
    other path functions of [tree.js] ([getNoteIdFromNotePath],
    [parseNotePath], [getNotePath], [getNotePathTitle],
    [getHashValueFromAddress]), of [setNote] and
    [entitiesReloadedEvent] of [TabContext], and of [migrate] of the
    migration service, with properties read off their code.

    JavaScript strings are modelled by [string] (code units below 256),
    arrays by lists ([push] appends at the end), the object
    [treeCache.notes] by a [gmap] keyed by note id.  [undefined] and
    [null] results are [None].  The only loop that may run forever,
    the [while] of [getSomeNotePath], takes fuel: one unit per
    evaluation of the loop condition, and [None] at the outer level
    means that the fuel did not suffice. *)

From Stdlib Require Import String Ascii List Bool Arith Lia.
From Stdlib Require Import Sorting.Sorted Sorting.Permutation.
From stdpp Require Import base option list gmap strings.
Import ListNotations.

Local Open Scope string_scope.
Local Open Scope list_scope.

(** ** String primitives of JavaScript *)

Module JsString.

(** [s.split(sep)] for a one-character separator: never empty, the
    empty string gives [[""]]. *)
Fixpoint split (sep : ascii) (s : string) : list string :=
  match s with
  | EmptyString => [EmptyString]
  | String ch rest =>
      if Ascii.eqb ch sep then EmptyString :: split sep rest
      else match split sep rest with
           | [] => [String ch EmptyString]
           | piece :: pieces => String ch piece :: pieces
           end
  end.

(** [arr.join(sep)] *)
Fixpoint join (sep : string) (arr : list string) : string :=
  match arr with
  | [] => EmptyString
  | [piece] => piece
  | piece :: more => piece +:+ sep +:+ join sep more
  end.

(** White space removed by [trim], among the code units below 256:
    TAB, LF, VT, FF, CR, SPACE and NBSP. *)
Definition isWhiteSpace (ch : ascii) : bool :=
  let n := nat_of_ascii ch in
  ((9 <=? n)%nat && (n <=? 13)%nat) || (n =? 32)%nat || (n =? 160)%nat.

Fixpoint trimStart (s : string) : string :=
  match s with
  | EmptyString => EmptyString
  | String ch rest => if isWhiteSpace ch then trimStart rest else s
  end.

Fixpoint trimEnd (s : string) : string :=
  match s with
  | EmptyString => EmptyString
  | String ch rest =>
      match trimEnd rest with
      | EmptyString => if isWhiteSpace ch then EmptyString else String ch EmptyString
      | kept => String ch kept
      end
  end.

(** [s.trim()] *)
Definition trim (s : string) : string := trimEnd (trimStart s).

(** [arr.includes(x)] on an array of strings *)
Definition includes (arr : list string) (x : string) : bool :=
  existsb (String.eqb x) arr.

(** Truthiness of a string: only the empty string is falsy. *)
Definition truthy (s : string) : bool :=
  match s with EmptyString => false | String _ _ => true end.

(** [s] contains the character [ch]. *)
Fixpoint hasChar (ch : ascii) (s : string) : bool :=
  match s with
  | EmptyString => false
  | String c rest => Ascii.eqb c ch || hasChar ch rest
  end.

End JsString.

(** ** The tree cache *)

(** A note as the client holds it ([NoteShort]): its id, its title and
    the ids of its parents in the order [getParentNotes] lists them. *)
Record Note : Type := mkNote {
  noteId : string;
  title : string;
  parents : list string
}.

#[global] Instance Note_eq_dec : EqDecision Note.
Proof. solve_decision. Defined.

(** [treeCache.notes], the notes loaded so far, by note id. *)
Abbreviation TreeCache := (gmap string Note).

(** Modelled from the spec: [treeCache.getNoteFromCache] of
    [tree_cache.js], which is not part of the sources at hand; a lookup
    in the cached state that never fetches (section 4.1). *)
Definition getNoteFromCache (cache : TreeCache) (id : string) : option Note :=
  cache !! id.

(** Modelled from the spec: [treeCache.getNote] of [tree_cache.js];
    the cached note, the cache standing for what is known once the
    awaited fetch has completed; [None] is the falsy result for an id
    that does not exist (section 4.1, [NotFound]). *)
Definition getNote (cache : TreeCache) (id : string) : option Note :=
  cache !! id.

(** Modelled from the spec: [note.getParentNotes()] of [note_short.js];
    the parents of the note that the cache holds, from cached state
    only, empty if none is cached (section 4.1, [getParentBranches]). *)
Definition getParentNotes (cache : TreeCache) (note : Note) : list Note :=
  omap (getNoteFromCache cache) (parents note).

(** ** Diagnostics *)

(** What the functions write: [console.log], [console.trace],
    [ws.logError] and the global [logError]. *)
Inductive LogEvent : Type :=
| ConsoleLog (msg : string)
| ConsoleTrace (msg : string)
| WsLogError (msg : string)
| LogError (msg : string).

(** Modelled from the spec: [utils.assertArguments] of [utils.js],
    which is not part of the sources at hand, called with one string;
    a falsy argument is reported and the call returns (section 7: no
    fatal error for bad input data). *)
Definition assertArguments (arg : string) : list LogEvent :=
  if JsString.truthy arg then []
  else [ConsoleTrace "Argument idx#0 should not be falsy: "].

(** A computation that may run out of fuel and that logs. *)
Definition Run (A : Type) : Type := option (list LogEvent * A).

(** The value a run returned, the log set aside. *)
Definition returned {A : Type} (r : Run A) : option A := option_map snd r.

(** A run after the diagnostics [events] were written. *)
Definition after {A : Type} (events : list LogEvent) (r : Run A) : Run A :=
  match r with
  | None => None
  | Some (more, value) => Some (events ++ more, value)
  end.

(** ** getSomeNotePath *)

(** The [while (cur.noteId !== 'root')] loop; [path] is the array
    filled so far. *)
Fixpoint getSomeNotePath_loop (fuel : nat) (cache : TreeCache)
    (path : list string) (cur : Note) : Run (option string) :=
  match fuel with
  | O => None
  | S fuel' =>
      if String.eqb (noteId cur) "root"
      then Some ([], Some (JsString.join "/" (rev (path ++ ["root"]))))
      else
        let path := path ++ [noteId cur] in
        match getParentNotes cache cur with
        | [] => Some ([LogError ("Can't find parents for note " +:+ noteId cur)], None)
        | first :: _ => getSomeNotePath_loop fuel' cache path first
        end
  end.

Definition getSomeNotePath (fuel : nat) (cache : TreeCache) (note : Note)
    : Run (option string) :=
  getSomeNotePath_loop fuel cache [] note.

(** ** resolveNotePathToSegments *)

(** The cache as each awaited [treeCache.getNote] of one resolution
    finds it: [store k] is the cache when the call resumes from its
    [k]-th await (counted from 0).  Everything up to the next await
    runs on that state, which is how messages that arrive meanwhile
    interleave with an [async] function. *)
Abbreviation Store := (nat -> gmap string Note).

(** No update arrives during the resolution. *)
Definition steady (cache : TreeCache) : Store := fun _ => cache.


(** [notePath.split("-")[0].trim()] *)
Definition stripTabSuffix (notePath : string) : string :=
  JsString.trim (hd EmptyString (JsString.split "-" notePath)).

(** The array [path]: the segments, child first, with ['root'] pushed
    when it is not among them. *)
Definition pathOf (notePath : string) : list string :=
  let path := rev (JsString.split "/" notePath) in
  if JsString.includes path "root" then path else path ++ ["root"].

Definition describeNote (p : Note) : string :=
  noteId p +:+ " (" +:+ title p +:+ ")".

Definition noParentsMessage (childNoteId : string) (child : Note) (notePath : string) : string :=
  "No parents found for " +:+ childNoteId +:+ " (" +:+ title child +:+ ") for path " +:+ notePath.

(** The text of the [console.log] of a missing parent (its first
    argument, the time [utils.now()], is left out). *)
Definition parentNotFoundMessage (cache : TreeCache) (parentNoteId childNoteId : string)
    (child : Note) (parentNotes : list Note) : string :=
  "Did not find parent " +:+ parentNoteId +:+ " (" +:+
  match getNoteFromCache cache parentNoteId with
  | Some parent => title parent
  | None => "n/a"
  end +:+ ") for child " +:+ childNoteId +:+ " (" +:+ title child +:+
  "), available parents: " +:+ JsString.join "," (map describeNote parentNotes).

(** The [while (true)] loop: [rest] is [path] from index [i] on,
    [awaits] the number of [getNote] calls awaited so far. *)
Fixpoint resolve_walk (fuel : nat) (store : Store) (logErrors : bool)
    (notePath : string) (awaits : nat) (rest : list string)
    (effectivePath : list string) (childNoteId : option string)
    : Run (option (list string)) :=
  match rest with
  | [] => Some ([], Some (rev effectivePath))
  | parentNoteId :: rest' =>
      match childNoteId with
      | None =>
          resolve_walk fuel store logErrors notePath awaits rest'
            (effectivePath ++ [parentNoteId]) (Some parentNoteId)
      | Some childId =>
          let cache := store awaits in
          match getNote cache childId with
          | None => Some ([ConsoleLog ("Can't find note " +:+ childId)], None)
          | Some child =>
              let parentNotes := getParentNotes cache child in
              match parentNotes with
              | [] =>
                  Some (if logErrors
                        then [WsLogError (noParentsMessage childId child notePath)]
                        else [],
                        None)
              | first :: _ =>
                  if existsb (fun p => String.eqb (noteId p) parentNoteId) parentNotes
                  then
                    resolve_walk fuel store logErrors notePath (S awaits) rest'
                      (effectivePath ++ [parentNoteId]) (Some parentNoteId)
                  else
                    after
                      (if logErrors
                       then [ConsoleLog (parentNotFoundMessage cache parentNoteId
                                           childId child parentNotes)]
                       else [])
                      match getSomeNotePath fuel cache first with
                      | None => None
                      | Some (events, someNotePath) =>
                          let effectivePath :=
                            match someNotePath with
                            | Some found =>
                                if JsString.truthy found
                                then effectivePath ++ rev (JsString.split "/" found)
                                else effectivePath
                            | None => effectivePath
                            end in
                          Some (events, Some (rev effectivePath))
                      end
              end
          end
      end
  end.

Definition resolveNotePathToSegments (fuel : nat) (store : Store)
    (notePath : string) (logErrors : bool) : Run (option (list string)) :=
  after (assertArguments notePath)
    (let notePath := stripTabSuffix notePath in
     if (String.length notePath =? 0)%nat then Some ([], None)
     else resolve_walk fuel store logErrors notePath 0 (pathOf notePath) [] None).

(** ** resolveNotePath *)

Definition resolveNotePath (fuel : nat) (store : Store) (notePath : string)
    : Run (option string) :=
  match resolveNotePathToSegments fuel store notePath true with
  | None => None
  | Some (events, Some runPath) => Some (events, Some (JsString.join "/" runPath))
  | Some (events, None) => Some (events, None)
  end.

(** ** The websocket subscriber *)

(** A message of the websocket: its [type] and its [noteId]. *)
Record Message : Type := mkMessage {
  messageType : string;
  messageNoteId : string
}.

(** Calls into the collaborators of this module. *)
Inductive Call : Type :=
| ActivateOrOpenNote (id : string)   (* appContext.tabManager.activateOrOpenNote *)
| ShowCurrentWindow.                 (* electron: currentWindow.show() *)

(** The client as the subscriber sees it: the tree cache and the calls
    made to collaborators, oldest first. *)
Record Client : Type := mkClient {
  treeCache : gmap string Note;
  calls : list Call
}.

(** The function given to [ws.subscribeToMessages]; [isElectron] is
    [utils.isElectron()]. *)
Definition onMessage (isElectron : bool) (message : Message) (client : Client) : Client :=
  if String.eqb (messageType message) "open-note"
  then
    let client :=
      mkClient (treeCache client) (calls client ++ [ActivateOrOpenNote (messageNoteId message)]) in
    if isElectron
    then mkClient (treeCache client) (calls client ++ [ShowCurrentWindow])
    else client
  else client.

(** ** getNoteIdAndParentIdFromNotePath *)

Record NoteIdAndParentId : Type := mkNoteIdAndParentId {
  parentNoteIdOf : string;
  noteIdOf : string
}.

Definition getNoteIdAndParentIdFromNotePath (notePath : string) : NoteIdAndParentId :=
  if String.eqb notePath "root"
  then mkNoteIdAndParentId "none" "root"
  else
    if JsString.truthy notePath
    then
      let path := JsString.split "/" notePath in
      let lastSegment := nth (length path - 1) path EmptyString in
      let noteId := hd EmptyString (JsString.split "-" lastSegment) in
      if (1 <? length path)%nat
      then mkNoteIdAndParentId (nth (length path - 2) path EmptyString) noteId
      else mkNoteIdAndParentId "root" noteId
    else mkNoteIdAndParentId "root" EmptyString.

(** ** Caches of the scenarios *)

Definition cacheOf (notes : list Note) : TreeCache :=
  list_to_map (map (fun n => (noteId n, n)) notes).

(** Branches root->A and A->B. *)
Definition scenario_before : TreeCache :=
  cacheOf [ mkNote "root" "root" []; mkNote "A" "a" ["root"]; mkNote "B" "b" ["A"] ].

(** [scenario_before] after branch A->B was deleted and branches
    root->C and C->B were added. *)
Definition scenario_after : TreeCache :=
  cacheOf [ mkNote "root" "root" []; mkNote "A" "a" ["root"];
            mkNote "C" "c" ["root"]; mkNote "B" "b" ["C"] ].

(** [scenario_after] once C has lost its branch from root. *)
Definition scenario_orphaned : TreeCache :=
  cacheOf [ mkNote "root" "root" []; mkNote "A" "a" ["root"];
            mkNote "C" "c" []; mkNote "B" "b" ["C"] ].

(** A note A under root, and a note whose id holds a dash. *)
Definition scenario_dashed : TreeCache :=
  cacheOf [ mkNote "root" "root" []; mkNote "A" "a" ["root"];
            mkNote "A-xyz1" "dashed" ["root"] ].

(** Notes A and B, each the only parent of the other; no root. *)
Definition scenario_cycle : TreeCache :=
  cacheOf [ mkNote "A" "a" ["B"]; mkNote "B" "b" ["A"] ].

(** Every note of [notes] is not root and has a first parent that is
    again in [notes]: following first parents never leaves [notes]. *)
Definition firstParentClosed (cache : TreeCache) (notes : list Note) : bool :=
  forallb
    (fun n =>
       negb (String.eqb (noteId n) "root") &&
       match getParentNotes cache n with
       | [] => false
       | first :: _ => bool_decide (first ∈ notes)
       end)
    notes.

(** ** Branches along a path *)

(** [parent] is among the parents the cache lists for the note
    [child]: the test the walk makes before it accepts [parent]. *)
Definition accepts (cache : TreeCache) (child parent : string) : bool :=
  match getNote cache child with
  | Some note => existsb (fun p => String.eqb (noteId p) parent) (getParentNotes cache note)
  | None => false
  end.

(** [related] holds of every two neighbours of the list. *)
Fixpoint allAdjacent (related : string -> string -> bool) (l : list string) : bool :=
  match l with
  | x :: (y :: _) as more => related x y && allAdjacent related more
  | _ => true
  end.

(** A child-first list in which each element is accepted as parent of
    the one before it. *)
Definition chainUp (cache : TreeCache) (l : list string) : bool :=
  allAdjacent (accepts cache) l.

(** A root-first list in which every consecutive (parent, child) pair
    is a branch of the cache. *)
Definition validPath (cache : TreeCache) (l : list string) : bool :=
  allAdjacent (fun parent child => accepts cache child parent) l.

(** ** Well-formed caches *)

(** Every note is stored under its own id, as [treeCache.notes] is
    filled. *)
Definition consistent (cache : TreeCache) : Prop :=
  map_Forall (fun id note => noteId note = id) cache.

(** No note id of the cache holds the character [ch]. *)
Definition idsWithout (ch : ascii) (cache : TreeCache) : Prop :=
  map_Forall (fun id (_ : Note) => JsString.hasChar ch id = false) cache.

(** The note reached from [note] by taking [k] times the first of the
    parent notes, if there is one each time. *)
Fixpoint firstAncestor (cache : TreeCache) (k : nat) (note : Note) : option Note :=
  match k with
  | O => Some note
  | S k' =>
      match getParentNotes cache note with
      | [] => None
      | first :: _ => firstAncestor cache k' first
      end
  end.

(** What the repair pushes onto [effectivePath] for the result
    [someNotePath] of [getSomeNotePath]. *)
Definition fallbackSegments (someNotePath : option string) : list string :=
  match someNotePath with
  | Some found => if JsString.truthy found then rev (JsString.split "/" found) else []
  | None => []
  end.

(** ** Further string primitives *)

Module JsStringMore.

(** [s.substr(n)]: [s] without its first [n] code units. *)
Fixpoint substr (n : nat) (s : string) : string :=
  match n, s with
  | O, _ => s
  | S n', String _ rest => substr n' rest
  | S _, EmptyString => EmptyString
  end.

(** [s.startsWith(p)] *)
Fixpoint startsWith (p s : string) : bool :=
  match p, s with
  | EmptyString, _ => true
  | String a p', String b s' => Ascii.eqb a b && startsWith p' s'
  | String _ _, EmptyString => false
  end.

End JsStringMore.

(** ** getNoteIdFromNotePath *)

Definition getNoteIdFromNotePath (notePath : string) : option string :=
  if JsString.truthy notePath
  then
    let path := JsString.split "/" notePath in
    let lastSegment := nth (length path - 1) path EmptyString in
    Some (hd EmptyString (JsString.split "-" lastSegment))
  else None.

(** ** parseNotePath *)

Definition parseNotePath (notePath : string) : list string :=
  let noteIds := JsString.split "/" notePath in
  if String.eqb (hd EmptyString noteIds) "root" then noteIds else "root" :: noteIds.

(** ** getHashValueFromAddress *)

(** [hash] is [document.location.hash]. *)
Definition getHashValueFromAddress (hash : string) : list string :=
  let str := if JsString.truthy hash then JsStringMore.substr 1 hash else EmptyString in
  JsString.split "-" str.

(** ** getNotePath *)

(** A node of the tree widget with its ancestors: [node.data.noteId]
    (empty when the node has none) and, unless [node.getParent()] is
    null, the parent node. *)
Inductive TreeNode : Type :=
| TopNode (id : string)
| ChildNode (id : string) (parent : TreeNode).

Definition dataNoteId (node : TreeNode) : string :=
  match node with TopNode id | ChildNode id _ => id end.

Definition getParent (node : TreeNode) : option TreeNode :=
  match node with TopNode _ => None | ChildNode _ parent => Some parent end.

(** The [while (node && !isRootNode(node))] loop and the push that
    follows it; [isRootNode] is [hoistedNoteService.isRootNode], which
    is not part of the sources at hand. *)
Fixpoint getNotePath_loop (isRootNode : TreeNode -> bool) (node : TreeNode)
    (path : list string) : list string :=
  if isRootNode node then path ++ [dataNoteId node]
  else
    let path := if JsString.truthy (dataNoteId node) then path ++ [dataNoteId node] else path in
    match node with
    | ChildNode _ up => getNotePath_loop isRootNode up path
    | TopNode _ => path
    end.

Definition getNotePath (isRootNode : TreeNode -> bool) (node : option TreeNode)
    : list LogEvent * string :=
  match node with
  | None => ([LogError "Node is null"], EmptyString)
  | Some node => ([], JsString.join "/" (rev (getNotePath_loop isRootNode node [])))
  end.

(** ** getNoteTitle and getNotePathTitle *)

(** A branch as far as titles need it: its [prefix], empty when it
    has none. *)
Record Branch : Type := mkBranch {
  prefix : string
}.

(** What the title functions read besides the notes:
    [note.parentToBranch[parentNoteId]] and [treeCache.getBranch],
    both outside the sources at hand. *)
Record BranchSource : Type := mkBranchSource {
  parentToBranch : Note -> string -> option string;
  getBranch : string -> option Branch
}.

Definition getNoteTitle (cache : TreeCache) (branches : BranchSource)
    (id : string) (parentNoteId : option string) : list LogEvent * string :=
  (assertArguments id,
   match getNote cache id with
   | None => "[not found]"
   | Some note =>
       match parentNoteId with
       | None => title note
       | Some parentId =>
           match parentToBranch branches note parentId with
           | None => title note
           | Some branchId =>
               if JsString.truthy branchId
               then
                 match getBranch branches branchId with
                 | None => title note
                 | Some branch =>
                     if JsString.truthy (prefix branch)
                     then prefix branch +:+ " - " +:+ title note
                     else title note
                 end
               else title note
           end
       end
   end).

(** The [for (const noteId of notePath.split('/'))] loop. *)
Fixpoint getNotePathTitle_loop (cache : TreeCache) (branches : BranchSource)
    (noteIds : list string) (parentNoteId : string) (titlePath : list string)
    : list LogEvent * list string :=
  match noteIds with
  | [] => ([], titlePath)
  | id :: more =>
      let (events, shown) := getNoteTitle cache branches id (Some parentNoteId) in
      let (later, titles) :=
        getNotePathTitle_loop cache branches more id (titlePath ++ [shown]) in
      (events ++ later, titles)
  end.

Definition getNotePathTitle (cache : TreeCache) (branches : BranchSource)
    (notePath : string) : list LogEvent * string :=
  let events := assertArguments notePath in
  let notePath :=
    if JsStringMore.startsWith "root/" notePath then JsStringMore.substr 5 notePath
    else notePath in
  if String.eqb notePath "root"
  then
    let (more, shown) := getNoteTitle cache branches notePath None in
    (events ++ more, shown)
  else
    let (more, titles) :=
      getNotePathTitle_loop cache branches (JsString.split "/" notePath) "root" [] in
    (events ++ more, JsString.join " / " titles).

(** ** TabContext *)

(** The fields of a tab context that its methods read and write;
    [None] stands for undefined and null. *)
Record TabContext : Type := mkTabContext {
  tabId : string;
  tabNotePath : option string;
  tabNoteId : option string;
  autoBookDisabled : option bool
}.

(** What a method of the tab context does to the outside. *)
Inductive TabEffect : Type :=
| Diagnostic (event : LogEvent)            (* written by the resolution *)
| ConsoleError (msg : string)
| BeforeNoteSwitch                         (* triggerEvent('beforeNoteSwitch') *)
| TabNoteSwitched (notePath : option string)  (* triggerEvent('tabNoteSwitched') *)
| CloseActiveDialog
| SetTimeout (ms : nat) (notePath : string)   (* the recent-notes callback *)
| TouchProtectedSession.

Definition isEvent (effect : TabEffect) : bool :=
  match effect with
  | BeforeNoteSwitch | TabNoteSwitched _ => true
  | _ => false
  end.

(** What [setNote] meets outside the tab context: the cache during
    the resolution, the answer of [hoistedNoteService.checkNoteAccess]
    ([false] when it is [false]), [treeCache.notes] when [this.note] is
    read, the [isProtected] flag of a note and
    [protectedSessionHolder.isProtectedSessionAvailable()]. *)
Record TabEnv : Type := mkTabEnv {
  envStore : nat -> gmap string Note;
  checkNoteAccess : string -> bool;
  envNotes : gmap string Note;
  isProtected : Note -> bool;
  protectedSessionAvailable : bool
}.

(** How a call ended: the tab context, what was done, and whether a
    TypeError was thrown (a property of undefined was read). *)
Record Outcome : Type := mkOutcome {
  context : TabContext;
  effects : list TabEffect;
  threw : bool
}.

Definition setNote (fuel : nat) (env : TabEnv) (inputNotePath : string)
    (triggerSwitchEvent : bool) (this : TabContext) : option Outcome :=
  match resolveNotePath fuel (envStore env) inputNotePath with
  | None => None
  | Some (events, resolved) =>
      let logged := map Diagnostic events in
      let unresolved :=
        mkOutcome this
          (logged ++ [ConsoleError ("Cannot resolve note path " +:+ inputNotePath)]) false in
      match resolved with
      | None => Some unresolved
      | Some notePath =>
          if negb (JsString.truthy notePath) then Some unresolved
          else if bool_decide (tabNotePath this = Some notePath)
          then Some (mkOutcome this logged false)
          else if negb (checkNoteAccess env notePath)
          then Some (mkOutcome this logged false)
          else
            let this' :=
              mkTabContext (tabId this) (Some notePath)
                (getNoteIdFromNotePath notePath) (Some false) in
            let done := logged ++ [BeforeNoteSwitch; CloseActiveDialog;
                                   SetTimeout 5000 notePath] in
            match tabNoteId this' ≫= (fun id => envNotes env !! id) with
            | None => Some (mkOutcome this' done true)
            | Some note =>
                Some (mkOutcome this'
                        (done
                         ++ (if isProtected env note && protectedSessionAvailable env
                             then [TouchProtectedSession] else [])
                         ++ (if triggerSwitchEvent
                             then [TabNoteSwitched (Some notePath)] else []))
                        false)
            end
      end
  end.

(** [entitiesReloadedEvent]: [reloaded] is
    [loadResults.isNoteReloaded(this.noteId)], [fetched] what the
    awaited [treeCache.getNote(this.noteId)] gives and [isDeleted] the
    flag of a note. *)
Definition entitiesReloadedEvent (reloaded : bool) (fetched : option Note)
    (isDeleted : Note -> bool) (this : TabContext) : Outcome :=
  if reloaded
  then
    match fetched with
    | None => mkOutcome this [] true
    | Some note =>
        if isDeleted note
        then mkOutcome (mkTabContext (tabId this) None None (autoBookDisabled this))
               [TabNoteSwitched None] false
        else mkOutcome this [] false
    end
  else mkOutcome this [] false.

(** The note id of a tab context is the one its note path ends
    with. *)
Definition tabConsistent (this : TabContext) : Prop :=
  tabNoteId this = tabNotePath this ≫= getNoteIdFromNotePath.

(** ** Migrations (the migration service) *)

Module Migration.

(** A migration record; [success] and [error] are the fields the run
    sets, [None] while unset. *)
Record MigrationRecord : Type := mkMigrationRecord {
  dbVersion : nat;
  name : string;
  file : string;
  type : string;
  success : option bool;
  error : option string
}.

Definition isDigit (ch : ascii) : bool :=
  let n := nat_of_ascii ch in (48 <=? n)%nat && (n <=? 57)%nat.

(** The class [[a-zA-Z0-9_ ]]. *)
Definition isNameChar (ch : ascii) : bool :=
  let n := nat_of_ascii ch in
  ((97 <=? n)%nat && (n <=? 122)%nat) || ((65 <=? n)%nat && (n <=? 90)%nat)
  || isDigit ch || (n =? 95)%nat || (n =? 32)%nat.

(** The longest prefix of name characters, and what follows it. *)
Fixpoint spanName (s : string) : string * string :=
  match s with
  | String ch rest =>
      if isNameChar ch
      then let (taken, left) := spanName rest in (String ch taken, left)
      else (EmptyString, s)
  | EmptyString => (EmptyString, EmptyString)
  end.

Definition digitValue (ch : ascii) : nat := nat_of_ascii ch - 48.

(** A match of [([0-9]{4})__([a-zA-Z0-9_ ]+)\.(sql|js)] at the start
    of [s]: the groups 1 (as [parseInt] reads it), 2 and 3.  The name
    group is greedy; since a dot is no name character only its longest
    run can be followed by the dot. *)
Definition matchHere (s : string) : option (nat * string * string) :=
  match s with
  | String d1 (String d2 (String d3 (String d4 (String "_" (String "_" rest))))) =>
      if isDigit d1 && isDigit d2 && isDigit d3 && isDigit d4
      then
        let (taken, left) := spanName rest in
        match taken, left with
        | String _ _, String "." ext =>
            let version :=
              1000 * digitValue d1 + 100 * digitValue d2 + 10 * digitValue d3 + digitValue d4 in
            if JsStringMore.startsWith "sql" ext then Some (version, taken, "sql")
            else if JsStringMore.startsWith "js" ext then Some (version, taken, "js")
            else None
        | _, _ => None
        end
      else None
  | _ => None
  end.

(** [file.match(...)]: the leftmost match. *)
Fixpoint matchFile (s : string) : option (nat * string * string) :=
  match matchHere s with
  | Some groups => Some groups
  | None =>
      match s with
      | String _ rest => matchFile rest
      | EmptyString => None
      end
  end.

(** The [forEach] over the directory: the records of the files that
    match and whose version is greater than [currentDbVersion], which
    is [None] when [parseInt] gave NaN. *)
Fixpoint collect (currentDbVersion : option nat) (files : list string)
    : list MigrationRecord :=
  match files with
  | [] => []
  | f :: more =>
      match matchFile f, currentDbVersion with
      | Some (version, nm, ty), Some current =>
          if (current <? version)%nat
          then mkMigrationRecord version nm f ty None None :: collect currentDbVersion more
          else collect currentDbVersion more
      | _, _ => collect currentDbVersion more
      end
  end.

(** [migrations.sort((a, b) => a.dbVersion - b.dbVersion)], a stable
    sort. *)
Fixpoint insert (mig : MigrationRecord) (sorted : list MigrationRecord)
    : list MigrationRecord :=
  match sorted with
  | [] => [mig]
  | next :: more =>
      if (dbVersion mig <=? dbVersion next)%nat then mig :: sorted
      else next :: insert mig more
  end.

Definition sort (migrations : list MigrationRecord) : list MigrationRecord :=
  fold_right insert [] migrations.

(** What a run does, in order. *)
Inductive Action : Type :=
| BackupNow
| Attempt (version : nat)        (* log.info and the guarded block *)
| Succeeded (version : nat)      (* log.info of the success *)
| Failed (version : nat) (stack : string)   (* log.error *)
| ForeignKeysOn                  (* the finally block *)
| InitDbConnection.

(** The [for (const mig of migrations)] loop; [attempt mig] is
    [None] when the guarded block of [mig] completes and the stack of
    the exception when it throws. *)
Fixpoint runAll (attempt : MigrationRecord -> option string)
    (migrations : list MigrationRecord) : list MigrationRecord * list Action :=
  match migrations with
  | [] => ([], [])
  | mig :: more =>
      match attempt mig with
      | None =>
          let (later, actions) := runAll attempt more in
          (mkMigrationRecord (dbVersion mig) (name mig) (file mig) (type mig)
             (Some true) (error mig) :: later,
           [Attempt (dbVersion mig); Succeeded (dbVersion mig); ForeignKeysOn] ++ actions)
      | Some stack =>
          (mkMigrationRecord (dbVersion mig) (name mig) (file mig) (type mig)
             (Some false) (Some stack) :: more,
           [Attempt (dbVersion mig); Failed (dbVersion mig) stack; ForeignKeysOn])
      end
  end.

(** [migrate]: [files] is the listing of the migrations directory and
    [upToDate] the answer of [sqlInit.isDbUpToDate()] after the run. *)
Definition migrate (currentDbVersion : option nat) (files : list string)
    (attempt : MigrationRecord -> option string) (upToDate : bool)
    : list MigrationRecord * list Action :=
  let migrations := sort (collect currentDbVersion files) in
  let (result, actions) := runAll attempt migrations in
  (result, [BackupNow] ++ actions ++ (if upToDate then [InitDbConnection] else [])).

(** The file matches the pattern with a version greater than
    [currentDbVersion]. *)
Definition qualifies (currentDbVersion : option nat) (f : string) : bool :=
  match matchFile f, currentDbVersion with
  | Some (version, _, _), Some current => (current <? version)%nat
  | _, _ => false
  end.

(** Every character of [s] is a name character. *)
Fixpoint allNameChars (s : string) : bool :=
  match s with
  | EmptyString => true
  | String ch rest => isNameChar ch && allNameChars rest
  end.

(** The order of the comparator [a.dbVersion - b.dbVersion]. *)
Definition byVersion (a b : MigrationRecord) : Prop := dbVersion a <= dbVersion b.

(** The record as the directory pass made it, before a run. *)
Definition pending (mig : MigrationRecord) : MigrationRecord :=
  mkMigrationRecord (dbVersion mig) (name mig) (file mig) (type mig) None None.

(** The run took up this migration. *)
Definition attempted (mig : MigrationRecord) : bool :=
  match success mig with Some _ => true | None => false end.

Definition isForeignKeysOn (action : Action) : bool :=
  match action with ForeignKeysOn => true | _ => false end.

End Migration.

(** ** First parents up to root *)

(** [chain] lists the notes met from [note] by taking the first parent
    again and again: each is the first parent of the one before it,
    the last of them is root, and neither [note] (unless [chain] is
    empty and [note] is root itself) nor any other of them is. *)
Fixpoint firstParentsToRoot (cache : TreeCache) (note : Note) (chain : list Note) : bool :=
  match chain with
  | [] => String.eqb (noteId note) "root"
  | next :: more =>
      negb (String.eqb (noteId note) "root") &&
      match getParentNotes cache note with
      | [] => false
      | first :: _ => bool_decide (first = next) && firstParentsToRoot cache next more
      end
  end.

(** Branches root->A, root->D, D->C and C->B. *)
Definition scenario_deep : TreeCache :=
  cacheOf [ mkNote "root" "root" []; mkNote "A" "a" ["root"]; mkNote "D" "d" ["root"];
            mkNote "C" "c" ["D"]; mkNote "B" "b" ["C"] ].

(** Branches root->A and C->B, with C and D each the only parent of
    the other. *)
Definition scenario_cyclic : TreeCache :=
  cacheOf [ mkNote "root" "root" []; mkNote "A" "a" ["root"]; mkNote "B" "b" ["C"];
            mkNote "C" "c" ["D"]; mkNote "D" "d" ["C"] ].

(** * Properties *)

(** ** The scenario of the specification *)

Example resolve_scenario_before :
  resolveNotePathToSegments 0 (steady scenario_before) "A/B" true
  = Some ([], Some ["root"; "A"; "B"]).
Proof. reflexivity. Qed.

Example resolve_scenario_after :
  returned (resolveNotePathToSegments 2 (steady scenario_after) "A/B" true)
  = Some (Some ["root"; "C"; "B"]).
Proof. reflexivity. Qed.

Example getSomeNotePath_scenario :
  getSomeNotePath 3 scenario_before (mkNote "B" "b" ["A"]) = Some ([], Some "root/A/B").
Proof. reflexivity. Qed.

Example trim_example : JsString.trim "  root/A  " = "root/A".
Proof. reflexivity. Qed.

Example split_example : JsString.split "/" "root//A/" = ["root"; ""; "A"; ""].
Proof. reflexivity. Qed.

(** ** Splitting and joining *)

Section SplitJoin.

Variable sep : ascii.

Lemma split_not_nil (s : string) : JsString.split sep s <> [].
Proof.
  destruct s as [|ch rest]; simpl; [discriminate|].
  destruct (Ascii.eqb ch sep); [discriminate|].
  destruct (JsString.split sep rest); discriminate.
Qed.

Lemma split_cons (s : string) :
  exists piece pieces, JsString.split sep s = piece :: pieces.
Proof.
  destruct (JsString.split sep s) as [|piece pieces] eqn:E.
  - now apply split_not_nil in E.
  - eauto.
Qed.

Lemma join_cons (glue piece next : string) (more : list string) :
  JsString.join glue (piece :: next :: more)
  = piece +:+ glue +:+ JsString.join glue (next :: more).
Proof. reflexivity. Qed.

(** Joining the pieces with the separator gives the string back. *)
Lemma join_split (s : string) :
  JsString.join (String sep EmptyString) (JsString.split sep s) = s.
Proof.
  induction s as [|ch rest IH]; [reflexivity|].
  cbn [JsString.split].
  destruct (split_cons rest) as (piece & pieces & E).
  rewrite E in *.
  destruct (Ascii.eqb_spec ch sep) as [->|Hne].
  - rewrite join_cons, IH. reflexivity.
  - destruct pieces as [|next more].
    + cbn in *. now rewrite IH.
    + rewrite join_cons. rewrite join_cons in IH.
      rewrite <- IH at 1. reflexivity.
Qed.

(** The first piece does not see what follows a separator. *)
Lemma hd_split_app (s t : string) :
  hd EmptyString (JsString.split sep (s +:+ String sep t))
  = hd EmptyString (JsString.split sep s).
Proof.
  induction s as [|ch rest IH]; simpl.
  - now rewrite Ascii.eqb_refl.
  - destruct (Ascii.eqb ch sep); [reflexivity|].
    destruct (split_cons (rest +:+ String sep t)) as (p1 & ps1 & E1).
    destruct (split_cons rest) as (p2 & ps2 & E2).
    rewrite E1, E2 in *. simpl in *. now rewrite IH.
Qed.

(** A string without the separator is one piece. *)
Lemma split_without (s : string) :
  JsString.hasChar sep s = false -> JsString.split sep s = [s].
Proof.
  induction s as [|ch rest IH]; simpl; [reflexivity|].
  intros H. apply orb_false_iff in H as [Hch Hrest].
  rewrite Hch, (IH Hrest). reflexivity.
Qed.

End SplitJoin.

(** ** getSomeNotePath *)

Section SomeNotePath.

Variable cache : gmap string Note.

Lemma getSomeNotePath_loop_closed (notes : list Note) :
  firstParentClosed cache notes = true ->
  forall fuel path cur,
    cur ∈ notes -> getSomeNotePath_loop fuel cache path cur = None.
Proof.
  intros Hclosed fuel.
  induction fuel as [|fuel IH]; intros path cur Hin; [reflexivity|].
  unfold firstParentClosed in Hclosed.
  rewrite forallb_forall in Hclosed.
  pose proof (Hclosed cur (proj1 (list_elem_of_In _ _) Hin)) as Hcur.
  apply andb_true_iff in Hcur as [Hroot Hpar].
  apply negb_true_iff in Hroot.
  cbn [getSomeNotePath_loop]. rewrite Hroot.
  destruct (getParentNotes cache cur) as [|first others]; [discriminate|].
  apply bool_decide_eq_true in Hpar.
  apply IH, Hpar.
Qed.

(** What a successful walk to root returns: no diagnostics, and a
    string whose pieces are root, then ids, then what [path] held,
    last pushed first. *)
Lemma getSomeNotePath_loop_found (fuel : nat) :
  forall path cur events found,
    getSomeNotePath_loop fuel cache path cur = Some (events, Some found) ->
    events = [] /\
    exists ids, found = JsString.join "/" ("root" :: ids ++ rev path) /\
                List.last ("root" :: ids) "" = noteId cur.
Proof.
  induction fuel as [|fuel IH]; intros path cur events found H; [discriminate|].
  cbn [getSomeNotePath_loop] in H.
  destruct (String.eqb_spec (noteId cur) "root") as [Hroot|Hroot].
  - injection H as <- <-. split; [reflexivity|].
    exists []. now rewrite rev_app_distr, Hroot.
  - destruct (getParentNotes cache cur) as [|first others]; [discriminate|].
    apply IH in H as [-> (ids & -> & _)]. split; [reflexivity|].
    exists (ids ++ [noteId cur]). split.
    + now rewrite rev_app_distr, <- app_assoc.
    + change ("root" :: ids ++ [noteId cur]) with (("root" :: ids) ++ [noteId cur]).
      apply last_last.
Qed.

Lemma hd_split_join_root (more : list string) :
  hd EmptyString (JsString.split "/" (JsString.join "/" ("root" :: more))) = "root".
Proof.
  destruct more as [|next more]; [reflexivity|].
  rewrite join_cons.
  change ("root" +:+ "/" +:+ JsString.join "/" (next :: more))
    with ("root" +:+ String "/" (JsString.join "/" (next :: more))).
  now rewrite hd_split_app.
Qed.

Lemma join_root_truthy (more : list string) :
  JsString.truthy (JsString.join "/" ("root" :: more)) = true.
Proof. destruct more; reflexivity. Qed.

End SomeNotePath.

(** C5 (orphan detection): a note that is not root and has no parent
    makes [getSomeNotePath] return no path, with the error logged, in
    its first iteration: any positive fuel suffices. *)
Theorem getSomeNotePath_orphan (cache : gmap string Note) (note : Note) (fuel : nat) :
  noteId note <> "root" ->
  getParentNotes cache note = [] ->
  getSomeNotePath (S fuel) cache note
  = Some ([LogError ("Can't find parents for note " +:+ noteId note)], None).
Proof.
  intros Hroot Hparents. unfold getSomeNotePath. cbn [getSomeNotePath_loop].
  apply String.eqb_neq in Hroot. rewrite Hroot, Hparents. reflexivity.
Qed.

Lemma getSomeNotePath_orphan_witness :
  getSomeNotePath 1 scenario_before (mkNote "X" "x" [])
  = Some ([LogError "Can't find parents for note X"], None).
Proof.
  apply (getSomeNotePath_orphan scenario_before (mkNote "X" "x" []) 0).
  - discriminate.
  - reflexivity.
Defined.

(** C2 (cycle safety) fails on the code: on two notes that are each
    other's only parent [getSomeNotePath] returns nothing, neither a
    failure nor a path, whatever the number of iterations allowed. *)
Lemma getSomeNotePath_cycle_counterexample :
  ~ exists fuel result,
      getSomeNotePath fuel scenario_cycle (mkNote "A" "a" ["B"]) = Some result.
Proof.
  intros (fuel & result & H).
  unfold getSomeNotePath in H.
  rewrite (getSomeNotePath_loop_closed scenario_cycle
             [mkNote "A" "a" ["B"]; mkNote "B" "b" ["A"]]) in H.
  - discriminate.
  - vm_compute. reflexivity.
  - apply list_elem_of_In. left. reflexivity.
Qed.

(** C2, amended: there is no visited set.  When following first
    parents from a note stays among notes that are not root and have
    a parent, as on a cycle of such notes, [getSomeNotePath] never
    returns: every amount of fuel runs out. *)
Theorem getSomeNotePath_cycle_diverges (cache : gmap string Note)
    (notes : list Note) (note : Note) (fuel : nat) :
  firstParentClosed cache notes = true ->
  note ∈ notes ->
  getSomeNotePath fuel cache note = None.
Proof.
  intros Hclosed Hin.
  now apply (getSomeNotePath_loop_closed cache notes Hclosed).
Qed.

Lemma getSomeNotePath_cycle_diverges_witness :
  getSomeNotePath 1000 scenario_cycle (mkNote "B" "b" ["A"]) = None.
Proof.
  apply (getSomeNotePath_cycle_diverges scenario_cycle
           [mkNote "A" "a" ["B"]; mkNote "B" "b" ["A"]]).
  - vm_compute. reflexivity.
  - apply list_elem_of_In. right. left. reflexivity.
Defined.

(** ** The walk of resolveNotePathToSegments *)

Lemma allAdjacent_snoc (related : string -> string -> bool) (l : list string) (x y : string) :
  allAdjacent related (l ++ [x; y]) = allAdjacent related (l ++ [x]) && related x y.
Proof.
  induction l as [|a l IH]; simpl.
  - now rewrite andb_true_r.
  - destruct l as [|b l]; simpl in *.
    + now rewrite !andb_true_r.
    + rewrite IH. now rewrite andb_assoc.
Qed.

Lemma allAdjacent_rev (related : string -> string -> bool) (l : list string) :
  allAdjacent related (rev l) = allAdjacent (fun x y => related y x) l.
Proof.
  induction l as [|a l IH]; [reflexivity|].
  destruct l as [|b l]; [reflexivity|].
  change (rev (a :: b :: l)) with (rev (b :: l) ++ [a]).
  change (rev (b :: l)) with (rev l ++ [b]) at 1.
  rewrite <- app_assoc. change ([b] ++ [a]) with [b; a].
  rewrite allAdjacent_snoc.
  change (rev l ++ [b]) with (rev (b :: l)).
  rewrite IH. cbn [allAdjacent]. apply andb_comm.
Qed.

Lemma chainUp_rev (cache : gmap string Note) (l : list string) :
  chainUp cache (rev l) = validPath cache l.
Proof. apply allAdjacent_rev. Qed.

Lemma last_cons_default (l : list string) :
  forall x d, List.last (x :: l) d = List.last l x.
Proof.
  induction l as [|y l IH]; intros x d; [reflexivity|].
  change (List.last (x :: y :: l) d) with (List.last (y :: l) d).
  now rewrite !IH.
Qed.

Lemma returned_after {A : Type} (events : list LogEvent) (r : Run A) :
  returned (after events r) = returned r.
Proof. destruct r as [[more value]|]; reflexivity. Qed.

Section Walk.

Variable fuel : nat.
Variable logErrors : bool.
Variable notePath : string.


Variable cache : gmap string Note.

(** Segments that form a chain are accepted one after the other. *)
Lemma resolve_walk_accept (accepted : list string) :
  forall rest awaits effectivePath childId,
    chainUp cache (childId :: accepted) = true ->
    resolve_walk fuel (steady cache) logErrors notePath awaits (accepted ++ rest)
      effectivePath (Some childId)
    = resolve_walk fuel (steady cache) logErrors notePath (awaits + length accepted) rest
        (effectivePath ++ accepted) (Some (List.last accepted childId)).
Proof.
  induction accepted as [|parentNoteId accepted IH];
    intros rest awaits eff childId Hchain.
  - cbn. now rewrite Nat.add_0_r, app_nil_r.
  - unfold chainUp in Hchain. cbn [allAdjacent] in Hchain.
    apply andb_true_iff in Hchain as [Hacc Hchain].
    unfold accepts in Hacc.
    cbn [app resolve_walk]. unfold steady at 1 2 3.
    destruct (getNote cache childId) as [note|]; [|discriminate].
    destruct (getParentNotes cache note) as [|first others] eqn:Hpar;
      [discriminate|].
    rewrite Hacc, (IH rest (S awaits) (eff ++ [parentNoteId]) parentNoteId Hchain).
    rewrite <- app_assoc. cbn [length app].
    replace (S awaits + length accepted) with (awaits + S (length accepted)) by lia.
    now rewrite (last_cons_default accepted parentNoteId childId).
Qed.

(** The repair: a candidate that is not among the parents ends the
    walk with the fallback path in front of what was accepted. *)
Lemma resolve_walk_repair (awaits : nat) (candidate childId : string)
    (rest effectivePath : list string) (child first : Note) (others : list Note)
    (events : list LogEvent) (found : string) :
  getNote cache childId = Some child ->
  getParentNotes cache child = first :: others ->
  existsb (fun p => String.eqb (noteId p) candidate) (first :: others) = false ->
  getSomeNotePath fuel cache first = Some (events, Some found) ->
  JsString.truthy found = true ->
  returned (resolve_walk fuel (steady cache) logErrors notePath awaits
              (candidate :: rest) effectivePath (Some childId))
  = Some (Some (JsString.split "/" found ++ rev effectivePath)).
Proof.
  intros Hnote Hpar Hnone Hsome Htruthy.
  cbn [resolve_walk]. unfold steady.
  rewrite Hnote, Hpar, Hnone, Hsome, Htruthy, returned_after.
  cbn. now rewrite rev_app_distr, rev_involutive.
Qed.

End Walk.

(** ** resolveNotePathToSegments and resolveNotePath *)

Lemma resolveNotePath_returned (fuel : nat) (store : Store) (notePath : string) :
  returned (resolveNotePath fuel store notePath)
  = option_map (option_map (JsString.join "/"))
      (returned (resolveNotePathToSegments fuel store notePath true)).
Proof.
  unfold resolveNotePath.
  destruct (resolveNotePathToSegments fuel store notePath true) as [[events [runPath|]]|];
    reflexivity.
Qed.

Lemma stripTabSuffix_truthy (notePath : string) :
  stripTabSuffix notePath <> "" ->
  (String.length (stripTabSuffix notePath) =? 0)%nat = false.
Proof. destruct (stripTabSuffix notePath); [congruence|reflexivity]. Qed.

(** ** Where a returned sequence starts and ends *)

Section RootFirst.

Variable fuel : nat.
Variable logErrors : bool.
Variable notePath : string.
Variable cache : gmap string Note.

(** In a chain that holds root, a root without parents comes last. *)
Lemma chainUp_root_last (l : list string) :
  (forall parent, accepts cache "root" parent = false) ->
  chainUp cache l = true ->
  In "root" l ->
  List.last l "" = "root".
Proof.
  intros Hroot. induction l as [|x l IH]; intros Hchain Hin; [contradiction|].
  destruct l as [|y l].
  - now destruct Hin.
  - unfold chainUp in Hchain. cbn [allAdjacent] in Hchain.
    apply andb_true_iff in Hchain as [Hxy Hchain].
    destruct Hin as [->|Hin]; [now rewrite Hroot in Hxy|].
    change (List.last (x :: y :: l) "") with (List.last (y :: l) "").
    now apply IH.
Qed.

Lemma pathOf_has_root (np : string) : In "root" (pathOf np).
Proof.
  unfold pathOf, JsString.includes.
  destruct (existsb (String.eqb "root") (rev (JsString.split "/" np))) eqn:E.
  - apply existsb_exists in E as (x & Hin & Heq).
    apply String.eqb_eq in Heq. now subst x.
  - apply in_or_app. right. now left.
Qed.

Lemma hd_rev_last (l : list string) :
  hd EmptyString (rev l) = List.last l EmptyString.
Proof.
  induction l as [|x l IH] using rev_ind; [reflexivity|].
  now rewrite rev_app_distr, last_last.
Qed.

End RootFirst.

(** C3 (root-first invariant), as the code runs it where the
    invariant breaks: B's only parent C has no parent, the fallback
    from C finds no path, and the resolution of root/A/B still returns
    a sequence, the accepted segment B alone, which does not start at
    root. *)
Theorem resolve_truncated_without_fallback :
  resolveNotePathToSegments 2 (steady scenario_orphaned) "root/A/B" true
  = Some ([ConsoleLog "Did not find parent A (a) for child B (b), available parents: C (c)";
           LogError "Can't find parents for note C"],
          Some ["B"]) /\
  hd_error ["B"] <> Some "root".
Proof. split; [vm_compute; reflexivity|discriminate]. Qed.

(** C4 (idempotence) fails for a path string that carries a tab
    suffix: root/A-xyz1 begins at root and its pair is a branch of the
    cache, read with the suffix or without, yet what comes back is
    root/A. *)
Lemma resolveNotePath_idempotence_counterexample :
  hd EmptyString (JsString.split "/" "root/A-xyz1") = "root" /\
  validPath scenario_dashed (JsString.split "/" "root/A-xyz1") = true /\
  validPath scenario_dashed (JsString.split "/" (stripTabSuffix "root/A-xyz1")) = true /\
  ~ exists fuel,
      returned (resolveNotePath fuel (steady scenario_dashed) "root/A-xyz1")
      = Some (Some "root/A-xyz1").
Proof.
  repeat split; try (vm_compute; reflexivity).
  intros [fuel H]. vm_compute in H. discriminate.
Qed.

(** C4, amended: a path string with no dash and no white space at
    its ends, that begins at root and in which every consecutive
    (parent, child) pair is a branch of the cache, is returned as it
    is, with nothing logged. *)
Theorem resolveNotePath_idempotent (fuel : nat) (cache : gmap string Note) (P : string) :
  JsString.hasChar "-" P = false ->
  JsString.trim P = P ->
  hd EmptyString (JsString.split "/" P) = "root" ->
  validPath cache (JsString.split "/" P) = true ->
  resolveNotePath fuel (steady cache) P = Some ([], Some P).
Proof.
  intros Hdash Htrim Hroot Hvalid.
  assert (Hstrip : stripTabSuffix P = P).
  { unfold stripTabSuffix. now rewrite (split_without "-" P Hdash). }
  assert (Hne : P <> "").
  { intros ->. discriminate. }
  assert (Hpath : pathOf P = rev (JsString.split "/" P)).
  { unfold pathOf, JsString.includes.
    replace (existsb (String.eqb "root") (rev (JsString.split "/" P))) with true;
      [reflexivity|].
    symmetry. apply existsb_exists. exists "root". split; [|apply String.eqb_refl].
    apply in_rev. rewrite rev_involutive.
    destruct (JsString.split "/" P) as [|piece pieces]; [discriminate|].
    left. exact Hroot. }
  unfold resolveNotePath, resolveNotePathToSegments, assertArguments.
  rewrite Hstrip, Hpath.
  destruct P as [|ch P']; [congruence|]. cbn [JsString.truthy String.length Nat.eqb after].
  rewrite <- chainUp_rev in Hvalid.
  destruct (rev (JsString.split "/" (String ch P'))) as [|target up] eqn:Hrev.
  - apply (f_equal (@rev string)) in Hrev. rewrite rev_involutive in Hrev.
    now apply split_not_nil in Hrev.
  - cbn [resolve_walk app].
    rewrite <- (app_nil_r up) at 1.
    rewrite (resolve_walk_accept fuel true (String ch P') cache up [] 0 [target] target Hvalid).
    cbn [resolve_walk app]. rewrite <- Hrev, rev_involutive.
    cbn [after app]. now rewrite (join_split "/").
Qed.

Lemma resolveNotePath_idempotent_witness :
  resolveNotePath 0 (steady scenario_before) "root/A/B" = Some ([], Some "root/A/B").
Proof.
  apply (resolveNotePath_idempotent 0 scenario_before "root/A/B"); reflexivity.
Defined.




Lemma stripTabSuffix_suffix (s t : string) :
  stripTabSuffix (s +:+ "-" +:+ t) = stripTabSuffix s.
Proof.
  unfold stripTabSuffix.
  change (s +:+ "-" +:+ t) with (s +:+ String "-" t).
  now rewrite hd_split_app.
Qed.

(** C8 (suffix stripping): [resolveNotePath] returns for root/A/B-xyz1
    what it returns for root/A/B, and in general what follows a dash
    has no part in the result: for every string [s] and suffix [t] the
    result for [s-t] is the result for [s], on every cache. *)
Theorem resolveNotePath_suffix :
  (forall fuel store,
      resolveNotePath fuel store "root/A/B-xyz1"
      = resolveNotePath fuel store "root/A/B") /\
  (forall fuel store s t,
      returned (resolveNotePath fuel store (s +:+ "-" +:+ t))
      = returned (resolveNotePath fuel store s)).
Proof.
  assert (H : forall fuel store s t,
             returned (resolveNotePath fuel store (s +:+ "-" +:+ t))
             = returned (resolveNotePath fuel store s)).
  { intros fuel store s t. rewrite !resolveNotePath_returned.
    unfold resolveNotePathToSegments.
    now rewrite !returned_after, stripTabSuffix_suffix. }
  split; [reflexivity|exact H].
Qed.

(** C9 (open-note pass-through): on a message of type open-note the
    subscriber calls [activateOrOpenNote] with the note id of the
    message (and, under electron, shows the window) and leaves the
    tree cache as it was. *)
Theorem onMessage_open_note (isElectron : bool) (message : Message) (client : Client) :
  messageType message = "open-note" ->
  treeCache (onMessage isElectron message client) = treeCache client /\
  calls (onMessage isElectron message client)
  = calls client ++ ActivateOrOpenNote (messageNoteId message)
                 :: (if isElectron then [ShowCurrentWindow] else []).
Proof.
  intros Htype. unfold onMessage. rewrite Htype. cbn.
  destruct isElectron; cbn; [|easy].
  now rewrite <- app_assoc.
Qed.

Lemma onMessage_open_note_witness :
  treeCache (onMessage false (mkMessage "open-note" "B") (mkClient scenario_before []))
  = scenario_before /\
  calls (onMessage false (mkMessage "open-note" "B") (mkClient scenario_before []))
  = [ActivateOrOpenNote "B"].
Proof.
  apply (onMessage_open_note false (mkMessage "open-note" "B") (mkClient scenario_before [])).
  reflexivity.
Defined.

Lemma nth_pred_length (l : list string) (d : string) :
  nth (length l - 1) l d = List.last l d.
Proof.
  induction l as [|x l IH]; [reflexivity|].
  destruct l as [|y l]; [reflexivity|].
  replace (length (x :: y :: l) - 1) with (S (length (y :: l) - 1))
    by (cbn [length]; lia).
  change (List.last (x :: y :: l) d) with (List.last (y :: l) d).
  now rewrite <- IH.
Qed.

(** C10 (edge cases of [getNoteIdAndParentIdFromNotePath]): root
    gives the note id root with the parent none; a path of one
    segment that is neither empty nor root gives the parent root; and
    the note id is always the last segment cut at its first dash. *)
Theorem getNoteIdAndParentIdFromNotePath_cases :
  getNoteIdAndParentIdFromNotePath "root" = mkNoteIdAndParentId "none" "root" /\
  (forall notePath,
      notePath <> "" -> notePath <> "root" ->
      JsString.hasChar "/" notePath = false ->
      parentNoteIdOf (getNoteIdAndParentIdFromNotePath notePath) = "root") /\
  (forall notePath,
      noteIdOf (getNoteIdAndParentIdFromNotePath notePath)
      = hd EmptyString
          (JsString.split "-" (List.last (JsString.split "/" notePath) EmptyString))).
Proof.
  split; [reflexivity|]. split.
  - intros notePath Hne Hroot Hone. unfold getNoteIdAndParentIdFromNotePath.
    apply String.eqb_neq in Hroot. rewrite Hroot.
    destruct notePath as [|ch rest]; [congruence|]. cbn [JsString.truthy].
    now rewrite (split_without "/" _ Hone).
  - intros notePath. unfold getNoteIdAndParentIdFromNotePath.
    destruct (String.eqb_spec notePath "root") as [->|Hroot]; [reflexivity|].
    destruct notePath as [|ch rest]; [reflexivity|]. cbn [JsString.truthy].
    rewrite nth_pred_length.
    now destruct (1 <? length (JsString.split "/" (String ch rest)))%nat.
Qed.

Lemma getNoteIdAndParentIdFromNotePath_cases_witness :
  parentNoteIdOf (getNoteIdAndParentIdFromNotePath "B-xyz1") = "root".
Proof.
  apply (proj1 (proj2 getNoteIdAndParentIdFromNotePath_cases) "B-xyz1").
  - discriminate.
  - discriminate.
  - reflexivity.
Defined.

(** * Further properties of the path functions *)

(** ** More on splitting and joining *)

Section SplitJoinMore.

Variable sep : ascii.

Lemma split_app_sep (a b : string) :
  JsString.hasChar sep a = false ->
  JsString.split sep (a +:+ String sep b) = a :: JsString.split sep b.
Proof.
  induction a as [|ch a IH]; simpl; intros H.
  - now rewrite Ascii.eqb_refl.
  - apply orb_false_iff in H as [Hch Ha].
    now rewrite Hch, (IH Ha).
Qed.

(** Splitting what was joined gives the pieces back, when no piece
    holds the separator. *)
Lemma split_join (l : list string) :
  l <> [] ->
  Forall (fun piece => JsString.hasChar sep piece = false) l ->
  JsString.split sep (JsString.join (String sep EmptyString) l) = l.
Proof.
  induction l as [|piece l IH]; intros Hne Hall; [congruence|].
  apply Forall_cons_iff in Hall as [Hpiece Hall].
  destruct l as [|next l].
  - now apply split_without.
  - rewrite join_cons.
    change (piece +:+ String sep "" +:+ JsString.join (String sep "") (next :: l))
      with (piece +:+ String sep (JsString.join (String sep "") (next :: l))).
    rewrite (split_app_sep _ _ Hpiece). f_equal. now apply IH.
Qed.

Lemma split_app_pieces (a b : string) :
  exists pre, pre <> [] /\
    JsString.split sep (a +:+ String sep b) = pre ++ JsString.split sep b.
Proof.
  induction a as [|ch a (pre & Hpre & IH)].
  - exists [EmptyString]. split; [discriminate|].
    simpl. now rewrite Ascii.eqb_refl.
  - simpl. rewrite IH.
    destruct (Ascii.eqb ch sep).
    + exists (EmptyString :: pre). now split.
    + destruct pre as [|p pre]; [congruence|].
      exists (String ch p :: pre). now split.
Qed.

Lemma last_app_nonempty (l1 l2 : list string) (d : string) :
  l2 <> [] -> List.last (l1 ++ l2) d = List.last l2 d.
Proof.
  intros Hne. induction l1 as [|x l1 IH]; [reflexivity|].
  cbn [app]. destruct (l1 ++ l2) as [|y l] eqn:E.
  - destruct l1, l2; cbn in E; congruence.
  - exact IH.
Qed.

(** The last piece only depends on what follows the last separator. *)
Lemma last_split_app (a b : string) :
  List.last (JsString.split sep (a +:+ String sep b)) EmptyString
  = List.last (JsString.split sep b) EmptyString.
Proof.
  destruct (split_app_pieces a b) as (pre & _ & ->).
  apply last_app_nonempty, split_not_nil.
Qed.

(** The last piece of a joined list is the last piece of its last
    element. *)
Lemma last_split_join (l : list string) :
  List.last (JsString.split sep (JsString.join (String sep EmptyString) l)) EmptyString
  = List.last (JsString.split sep (List.last l EmptyString)) EmptyString.
Proof.
  induction l as [|piece l IH]; [reflexivity|].
  destruct l as [|next l]; [reflexivity|].
  rewrite join_cons.
  change (piece +:+ String sep "" +:+ JsString.join (String sep "") (next :: l))
    with (piece +:+ String sep (JsString.join (String sep "") (next :: l))).
  now rewrite last_split_app, IH, !last_cons_default.
Qed.

End SplitJoinMore.

(** ** getSomeNotePath returns existing paths *)

Lemma allAdjacent_app (related : string -> string -> bool) (l1 l2 : list string) (x : string) :
  allAdjacent related (l1 ++ x :: l2)
  = allAdjacent related (l1 ++ [x]) && allAdjacent related (x :: l2).
Proof.
  induction l1 as [|a l1 IH]; [reflexivity|].
  destruct l1 as [|b l1].
  - cbn [app allAdjacent]. now rewrite andb_true_r.
  - cbn [app allAdjacent] in *. now rewrite IH, andb_assoc.
Qed.

Lemma last_rev_hd (l : list string) :
  List.last (rev l) EmptyString = hd EmptyString l.
Proof.
  destruct l as [|x l]; [reflexivity|]. cbn [rev hd]. apply last_last.
Qed.

Section ExistingPath.

Variable cache : gmap string Note.
Hypothesis Hconsistent : consistent cache.

(** The notes that [getParentNotes] lists are notes of the cache. *)
Lemma getParentNotes_cached (note parent : Note) :
  In parent (getParentNotes cache note) -> cache !! noteId parent = Some parent.
Proof.
  intros Hin. apply list_elem_of_In in Hin.
  unfold getParentNotes in Hin. apply list_elem_of_omap in Hin as (id & _ & Hid).
  unfold getNoteFromCache in Hid.
  now rewrite (map_Forall_lookup_1 _ _ _ _ Hconsistent Hid).
Qed.

(** The loop climbs along branches: what it pushes after [path] is a
    chain of cached notes that ends at root. *)
Lemma getSomeNotePath_loop_chain (fuel : nat) :
  forall path cur events found,
    cache !! noteId cur = Some cur ->
    chainUp cache (path ++ [noteId cur]) = true ->
    getSomeNotePath_loop fuel cache path cur = Some (events, Some found) ->
    exists more,
      found = JsString.join "/" (rev (path ++ noteId cur :: more)) /\
      chainUp cache (path ++ noteId cur :: more) = true /\
      List.last (noteId cur :: more) "" = "root" /\
      Forall (fun id => is_Some (cache !! id)) (noteId cur :: more).
Proof.
  induction fuel as [|fuel IH]; intros path cur events found Hcur Hchain H;
    [discriminate|].
  cbn [getSomeNotePath_loop] in H.
  destruct (String.eqb_spec (noteId cur) "root") as [Hroot|Hroot].
  - injection H as <- <-. exists []. rewrite Hroot in *.
    repeat split; try assumption. constructor; [now rewrite Hcur|constructor].
  - destruct (getParentNotes cache cur) as [|first others] eqn:Hpar; [discriminate|].
    assert (Hfirst : cache !! noteId first = Some first).
    { apply (getParentNotes_cached cur). rewrite Hpar. now left. }
    assert (Hstep : chainUp cache ((path ++ [noteId cur]) ++ [noteId first]) = true).
    { rewrite <- app_assoc. unfold chainUp in *. cbn [app].
      rewrite allAdjacent_snoc, Hchain. cbn [andb].
      unfold accepts, getNote. rewrite Hcur, Hpar. cbn [existsb].
      now rewrite String.eqb_refl. }
    destruct (IH _ _ _ _ Hfirst Hstep H) as (more & -> & Hup & Hlast & Hknown).
    exists (noteId first :: more). rewrite <- !app_assoc in *. cbn [app] in *.
    split; [reflexivity|]. split; [assumption|]. split; [exact Hlast|].
    constructor; [now rewrite Hcur|assumption].
Qed.

End ExistingPath.

(** X1: over a cache that stores every note under its id, a path that
    [getSomeNotePath] returns for a cached note is an existing path: it
    is the join of segments that start at root, end at the note and
    in which every consecutive (parent, child) pair is a branch. *)
Theorem getSomeNotePath_existing_path (fuel : nat) (cache : gmap string Note)
    (note : Note) (events : list LogEvent) (found : string) :
  consistent cache ->
  cache !! noteId note = Some note ->
  getSomeNotePath fuel cache note = Some (events, Some found) ->
  exists segments,
    found = JsString.join "/" segments /\
    hd "" segments = "root" /\
    List.last segments "" = noteId note /\
    validPath cache segments = true.
Proof.
  intros Hcons Hnote H. unfold getSomeNotePath in H.
  destruct (getSomeNotePath_loop_chain cache Hcons fuel [] note events found Hnote
              eq_refl H) as (more & -> & Hchain & Hlast & _).
  cbn [app] in *. exists (rev (noteId note :: more)). repeat split.
  - now rewrite hd_rev_last.
  - now rewrite last_rev_hd.
  - now rewrite <- chainUp_rev, rev_involutive.
Qed.

Lemma getSomeNotePath_existing_path_witness :
  exists segments,
    "root/A/B" = JsString.join "/" segments /\
    hd "" segments = "root" /\
    List.last segments "" = "B" /\
    validPath scenario_before segments = true.
Proof.
  apply (getSomeNotePath_existing_path 3 scenario_before (mkNote "B" "b" ["A"]) []).
  - unfold consistent. apply (bool_decide_unpack _). vm_compute. exact I.
  - reflexivity.
  - reflexivity.
Defined.

(** X2: when taking the first parent [k] times from a note arrives at
    root, [getSomeNotePath] returns a path, without a diagnostic,
    within [k + 1] evaluations of its loop condition. *)
Theorem getSomeNotePath_reaches_root (cache : gmap string Note) (k fuel : nat)
    (note top : Note) :
  firstAncestor cache k note = Some top ->
  noteId top = "root" ->
  k < fuel ->
  exists found, getSomeNotePath fuel cache note = Some ([], Some found).
Proof.
  unfold getSomeNotePath. generalize (@nil string) as path.
  revert fuel note. induction k as [|k IH]; intros fuel note path Hanc Hroot Hfuel;
    (destruct fuel as [|fuel]; [lia|]); cbn [getSomeNotePath_loop firstAncestor] in *.
  - injection Hanc as ->. rewrite Hroot. cbn. eauto.
  - destruct (String.eqb (noteId note) "root"); [eauto|].
    destruct (getParentNotes cache note) as [|first others]; [discriminate|].
    apply (IH fuel first); [assumption..|lia].
Qed.

Lemma getSomeNotePath_reaches_root_witness :
  exists found,
    getSomeNotePath 3 scenario_before (mkNote "B" "b" ["A"]) = Some ([], Some found).
Proof.
  apply (getSomeNotePath_reaches_root scenario_before 2 3
           (mkNote "B" "b" ["A"]) (mkNote "root" "root" [])).
  - reflexivity.
  - reflexivity.
  - lia.
Defined.

(** ** How a resolution ends *)

Section WalkOutcome.

Variable fuel : nat.
Variable cache : gmap string Note.

(** The value a walk returns depends neither on [logErrors] nor on
    the path text kept for the messages. *)
Lemma resolve_walk_returned_indep (store : Store) (le1 le2 : bool) (np1 np2 : string)
    (rest : list string) :
  forall awaits effectivePath childNoteId,
    returned (resolve_walk fuel store le1 np1 awaits rest effectivePath childNoteId)
    = returned (resolve_walk fuel store le2 np2 awaits rest effectivePath childNoteId).
Proof.
  induction rest as [|parentNoteId rest IH]; intros awaits eff child; [reflexivity|].
  cbn [resolve_walk]. destruct child as [childId|]; [|apply IH].
  destruct (getNote (store awaits) childId) as [note|]; [|reflexivity].
  destruct (getParentNotes (store awaits) note) as [|first others]; [reflexivity|].
  destruct (existsb _ (first :: others)); [apply IH|].
  now rewrite !returned_after.
Qed.

Variable logErrors : bool.
Variable notePath : string.

(** Every way a walk over a cache that does not change can end. *)
Lemma resolve_walk_outcome (rest : list string) :
  forall awaits effectivePath childId events result,
    resolve_walk fuel (steady cache) logErrors notePath awaits rest
      effectivePath (Some childId) = Some (events, result) ->
    (result = Some (rev (effectivePath ++ rest)) /\ events = [] /\
     chainUp cache (childId :: rest) = true) \/
    exists kept candidate beyond,
      rest = kept ++ candidate :: beyond /\
      chainUp cache (childId :: kept) = true /\
      ((getNote cache (List.last kept childId) = None /\
        events = [ConsoleLog ("Can't find note " +:+ List.last kept childId)] /\
        result = None) \/
       (exists child,
           getNote cache (List.last kept childId) = Some child /\
           getParentNotes cache child = [] /\
           events = (if logErrors
                     then [WsLogError (noParentsMessage (List.last kept childId) child notePath)]
                     else []) /\
           result = None) \/
       (exists child first others diagnostics someNotePath,
           getNote cache (List.last kept childId) = Some child /\
           getParentNotes cache child = first :: others /\
           existsb (fun p => String.eqb (noteId p) candidate) (first :: others) = false /\
           getSomeNotePath fuel cache first = Some (diagnostics, someNotePath) /\
           events = (if logErrors
                     then [ConsoleLog (parentNotFoundMessage cache candidate
                                         (List.last kept childId) child (first :: others))]
                     else []) ++ diagnostics /\
           result = Some (rev (effectivePath ++ kept ++ fallbackSegments someNotePath)))).
Proof.
  induction rest as [|parentNoteId rest IH];
    intros awaits eff childId events result H.
  - cbn [resolve_walk] in H. injection H as <- <-. left. now rewrite app_nil_r.
  - cbn [resolve_walk] in H. change (steady cache awaits) with cache in H.
    destruct (getNote cache childId) as [child|] eqn:Hnote.
    2:{ injection H as <- <-. right. exists [], parentNoteId, rest.
        split; [reflexivity|]. split; [reflexivity|]. left. now cbn [List.last]. }
    destruct (getParentNotes cache child) as [|first others] eqn:Hpar.
    { injection H as <- <-. right. exists [], parentNoteId, rest.
      split; [reflexivity|]. split; [reflexivity|]. right. left.
      exists child. now cbn [List.last]. }
    destruct (existsb _ (first :: others)) eqn:Hsome.
    + assert (Hacc : accepts cache childId parentNoteId = true).
      { unfold accepts. now rewrite Hnote, Hpar. }
      apply IH in H as [(-> & -> & Hchain)|(kept & cand & beyond & -> & Hchain & Hend)].
      * left. rewrite <- app_assoc. split; [reflexivity|]. split; [reflexivity|].
        unfold chainUp in *. cbn [allAdjacent]. now rewrite Hacc.
      * right. exists (parentNoteId :: kept), cand, beyond.
        split; [reflexivity|]. split.
        { unfold chainUp in *. cbn [allAdjacent]. now rewrite Hacc. }
        rewrite last_cons_default.
        destruct Hend as [Hend|[Hend|(c & f & o & d & r & Hc & Hp & He & Hf & Hev & ->)]];
          [now left|now right; left|].
        right. right. exists c, f, o, d, r. rewrite <- !app_assoc. now cbn [app].
    + right. exists [], parentNoteId, rest.
      split; [reflexivity|]. split; [reflexivity|]. right. right.
      destruct (getSomeNotePath fuel cache first) as [[diagnostics someNotePath]|] eqn:Hfb;
        [|destruct logErrors; cbn in H; discriminate H].
      exists child, first, others, diagnostics, someNotePath. cbn [List.last app].
      cbn [after] in H. injection H as <- <-.
      repeat (split; [assumption || reflexivity|]).
      f_equal. f_equal. unfold fallbackSegments.
      destruct someNotePath as [found|]; [|now rewrite app_nil_r].
      destruct (JsString.truthy found); [reflexivity|now rewrite app_nil_r].
Qed.

End WalkOutcome.

(** ** resolveNotePathToSegments: results and failures *)

Lemma after_nil {A : Type} (r : Run A) : after [] r = r.
Proof. destruct r as [[events value]|]; reflexivity. Qed.

Lemma stripTabSuffix_nonempty (raw : string) :
  stripTabSuffix raw <> "" -> assertArguments raw = [].
Proof. destruct raw; [now intros []|reflexivity]. Qed.

(** A resolution is the walk from the target, the last segment. *)
Lemma resolveNotePathToSegments_walk (fuel : nat) (store : Store) (raw : string)
    (logErrors : bool) :
  stripTabSuffix raw <> "" ->
  exists target up,
    pathOf (stripTabSuffix raw) = target :: up /\
    resolveNotePathToSegments fuel store raw logErrors
    = resolve_walk fuel store logErrors (stripTabSuffix raw) 0 up [target] (Some target).
Proof.
  intros Hne. unfold resolveNotePathToSegments.
  rewrite (stripTabSuffix_nonempty raw Hne), after_nil, (stripTabSuffix_truthy raw Hne).
  pose proof (pathOf_has_root (stripTabSuffix raw)) as Hin.
  destruct (pathOf (stripTabSuffix raw)) as [|target up]; [contradiction|].
  now exists target, up.
Qed.

(** A resolution whose first segments form a chain is the walk from
    the last of them on. *)
Lemma resolveNotePathToSegments_at_break (fuel : nat) (cache : gmap string Note)
    (raw : string) (logErrors : bool) (accepted rest : list string) :
  stripTabSuffix raw <> "" ->
  pathOf (stripTabSuffix raw) = accepted ++ rest ->
  accepted <> [] ->
  chainUp cache accepted = true ->
  resolveNotePathToSegments fuel (steady cache) raw logErrors
  = resolve_walk fuel (steady cache) logErrors (stripTabSuffix raw)
      (length accepted - 1) rest accepted (Some (List.last accepted "")).
Proof.
  intros Hne Hpath Hacc Hchain.
  destruct (resolveNotePathToSegments_walk fuel (steady cache) raw logErrors Hne)
    as (target & up & Hpath' & ->).
  destruct accepted as [|first accepted]; [congruence|].
  rewrite Hpath' in Hpath. cbn [app] in Hpath. injection Hpath as -> ->.
  rewrite (resolve_walk_accept fuel logErrors (stripTabSuffix raw) cache accepted
             rest 0 [first] first Hchain).
  replace (length (first :: accepted) - 1) with (0 + length accepted)
    by (cbn [length]; lia).
  cbn [app]. now rewrite last_cons_default.
Qed.

(** X3: the flag [logErrors] only decides what is logged: with it or
    without it [resolveNotePathToSegments] returns the same value, on
    every cache and whatever interleaves. *)
Theorem resolveNotePathToSegments_logErrors (fuel : nat) (store : Store) (raw : string) :
  returned (resolveNotePathToSegments fuel store raw true)
  = returned (resolveNotePathToSegments fuel store raw false).
Proof.
  unfold resolveNotePathToSegments. rewrite !returned_after.
  destruct (String.length (stripTabSuffix raw) =? 0)%nat; [reflexivity|].
  apply resolve_walk_returned_indep.
Qed.

(** X4: a resolution with [logErrors] that returns a sequence and
    logs nothing has accepted every segment: the sequence is the
    input's segments, root pushed if it was missing, and each
    consecutive (parent, child) pair of it is a branch of the cache. *)
Theorem resolveNotePathToSegments_silent (fuel : nat) (cache : gmap string Note)
    (raw : string) (segments : list string) :
  resolveNotePathToSegments fuel (steady cache) raw true = Some ([], Some segments) ->
  segments = rev (pathOf (stripTabSuffix raw)) /\
  validPath cache segments = true.
Proof.
  intros H.
  assert (Hne : stripTabSuffix raw <> "").
  { intros Hempty. unfold resolveNotePathToSegments in H. rewrite Hempty in H.
    destruct (assertArguments raw); discriminate H. }
  destruct (resolveNotePathToSegments_walk fuel (steady cache) raw true Hne)
    as (target & up & Hpath & Hwalk).
  rewrite Hwalk in H. rewrite Hpath.
  apply resolve_walk_outcome in H
    as [(Hres & _ & Hchain)|(kept & cand & beyond & _ & _ & [(_ & He & _)|[(c & _ & _ & He & _)|
         (c & f & o & d & r & _ & _ & _ & _ & He & _)]])]; try discriminate He.
  injection Hres as ->. cbn [app]. split; [reflexivity|].
  change (validPath cache (rev (target :: up)) = true).
  now rewrite <- chainUp_rev, rev_involutive.
Qed.

Lemma resolveNotePathToSegments_silent_witness :
  ["root"; "A"; "B"] = rev (pathOf (stripTabSuffix "A/B-t1")) /\
  validPath scenario_before ["root"; "A"; "B"] = true.
Proof.
  apply (resolveNotePathToSegments_silent 0 scenario_before "A/B-t1" ["root"; "A"; "B"]).
  reflexivity.
Defined.

Lemma allAdjacent_snoc_last (related : string -> string -> bool) (l : list string)
    (x d : string) :
  l <> [] ->
  allAdjacent related (l ++ [x]) = allAdjacent related l && related (List.last l d) x.
Proof.
  induction l as [|a l IH]; intros Hne; [congruence|].
  destruct l as [|b l].
  - cbn. now rewrite andb_true_r.
  - cbn [app allAdjacent] in *. rewrite IH by discriminate.
    now rewrite andb_assoc, !last_cons_default.
Qed.

(** X5: over a cache that stores every note under its id and has no
    slash in an id, every sequence that [resolveNotePathToSegments]
    returns is made of branches: each consecutive (parent, child) pair
    of it is a branch of the cache, also where a fallback was spliced
    in and where it was not found. *)
Theorem resolveNotePathToSegments_branches (fuel : nat) (cache : gmap string Note)
    (raw : string) (logErrors : bool) (segments : list string) :
  consistent cache ->
  idsWithout "/" cache ->
  returned (resolveNotePathToSegments fuel (steady cache) raw logErrors)
  = Some (Some segments) ->
  validPath cache segments = true.
Proof.
  intros Hcons Hslash H.
  assert (Hne : stripTabSuffix raw <> "").
  { intros Hempty. unfold resolveNotePathToSegments in H.
    rewrite returned_after, Hempty in H. discriminate H. }
  destruct (resolveNotePathToSegments_walk fuel (steady cache) raw logErrors Hne)
    as (target & up & Hpath & Hwalk).
  rewrite Hwalk in H.
  destruct (resolve_walk fuel (steady cache) logErrors (stripTabSuffix raw) 0 up
              [target] (Some target)) as [[events result]|] eqn:Hrun; [|discriminate].
  injection H as ->.
  apply resolve_walk_outcome in Hrun
    as [(Hres & _ & Hchain)|(kept & cand & beyond & _ & Hchain & [(_ & _ & Hres)|[(c & _ & _ & _ & Hres)|
         (child & first & others & d & r & Hchild & Hpar & _ & Hfb & _ & Hres)]])];
    try discriminate Hres;
    match type of Hres with
    | Some _ = Some (rev ?l) =>
        assert (Hsegments : segments = rev l) by congruence;
        rewrite Hsegments; clear Hres Hsegments
    end.
  - now rewrite <- chainUp_rev, rev_involutive.
  - rewrite <- chainUp_rev, rev_involutive. cbn [app].
    assert (Hkept : fallbackSegments r = [] -> chainUp cache (target :: kept ++ []) = true)
      by (intros _; now rewrite app_nil_r).
    destruct r as [found|]; [|now apply Hkept].
    cbn [fallbackSegments] in *.
    destruct (JsString.truthy found); [|now apply Hkept].
    assert (Hfirst : cache !! noteId first = Some first).
    { apply (getParentNotes_cached cache Hcons child). rewrite Hpar. now left. }
    destruct (getSomeNotePath_loop_chain cache Hcons fuel [] first d found Hfirst
                eq_refl Hfb) as (more & -> & Hup & _ & Hknown).
    cbn [app] in *.
    rewrite (split_join "/"), rev_involutive.
    + change (target :: kept ++ noteId first :: more)
        with ((target :: kept) ++ noteId first :: more).
      unfold chainUp in *.
      rewrite allAdjacent_app, (allAdjacent_snoc_last _ _ _ "") by discriminate.
      rewrite Hchain, Hup, last_cons_default. cbn [andb].
      rewrite andb_true_r. unfold accepts. rewrite Hchild, Hpar. cbn [existsb].
      now rewrite String.eqb_refl.
    + intros Hnil. apply (f_equal (@length string)) in Hnil.
      rewrite length_rev in Hnil. discriminate Hnil.
    + apply Forall_rev. eapply Forall_impl; [exact Hknown|].
      intros id [note Hid]. exact (map_Forall_lookup_1 _ _ _ _ Hslash Hid).
Qed.

Lemma resolveNotePathToSegments_branches_witness :
  validPath scenario_after ["root"; "C"; "B"] = true.
Proof.
  apply (resolveNotePathToSegments_branches 2 scenario_after "root/A/B" true).
  - unfold consistent. apply (bool_decide_unpack _). vm_compute. exact I.
  - unfold idsWithout. apply (bool_decide_unpack _). vm_compute. exact I.
  - reflexivity.
Defined.

(** X7: when the segments up to some point form a chain and the note
    of the last of them is not in the cache, the resolution returns no
    sequence and logs that it cannot find this note, whatever the
    segments beyond are. *)
Theorem resolveNotePathToSegments_missing_note (fuel : nat) (cache : gmap string Note)
    (raw : string) (logErrors : bool) (accepted : list string) (candidate : string)
    (beyond : list string) :
  stripTabSuffix raw <> "" ->
  pathOf (stripTabSuffix raw) = accepted ++ candidate :: beyond ->
  accepted <> [] ->
  chainUp cache accepted = true ->
  getNote cache (List.last accepted "") = None ->
  resolveNotePathToSegments fuel (steady cache) raw logErrors
  = Some ([ConsoleLog ("Can't find note " +:+ List.last accepted "")], None).
Proof.
  intros Hne Hpath Hacc Hchain Hnone.
  rewrite (resolveNotePathToSegments_at_break fuel cache raw logErrors accepted
             (candidate :: beyond) Hne Hpath Hacc Hchain).
  cbn [resolve_walk]. unfold steady. now rewrite Hnone.
Qed.

Lemma resolveNotePathToSegments_missing_note_witness :
  resolveNotePathToSegments 0 (steady scenario_before) "root/A/X" true
  = Some ([ConsoleLog ("Can't find note " +:+ List.last ["X"] "")], None).
Proof.
  apply (resolveNotePathToSegments_missing_note 0 scenario_before "root/A/X" true
           ["X"] "A" ["root"]).
  - discriminate.
  - reflexivity.
  - discriminate.
  - reflexivity.
  - reflexivity.
Defined.

(** X8: when the segments up to some point form a chain and the note
    of the last of them has no parent in the cache, the resolution
    returns no sequence; it reports the note through [ws.logError] if
    [logErrors] is set and is silent otherwise. *)
Theorem resolveNotePathToSegments_no_parents (fuel : nat) (cache : gmap string Note)
    (raw : string) (logErrors : bool) (accepted : list string) (candidate : string)
    (beyond : list string) (child : Note) :
  stripTabSuffix raw <> "" ->
  pathOf (stripTabSuffix raw) = accepted ++ candidate :: beyond ->
  accepted <> [] ->
  chainUp cache accepted = true ->
  getNote cache (List.last accepted "") = Some child ->
  getParentNotes cache child = [] ->
  resolveNotePathToSegments fuel (steady cache) raw logErrors
  = Some (if logErrors
          then [WsLogError (noParentsMessage (List.last accepted "") child
                              (stripTabSuffix raw))]
          else [],
          None).
Proof.
  intros Hne Hpath Hacc Hchain Hchild Hpar.
  rewrite (resolveNotePathToSegments_at_break fuel cache raw logErrors accepted
             (candidate :: beyond) Hne Hpath Hacc Hchain).
  cbn [resolve_walk]. unfold steady. now rewrite Hchild, Hpar.
Qed.

Lemma resolveNotePathToSegments_no_parents_witness :
  resolveNotePathToSegments 0 (steady scenario_orphaned) "root/C-t1" true
  = Some ([WsLogError "No parents found for C (c) for path root/C"], None).
Proof.
  apply (resolveNotePathToSegments_no_parents 0 scenario_orphaned "root/C-t1" true
           ["C"] "root" [] (mkNote "C" "c" [])).
  - discriminate.
  - reflexivity.
  - discriminate.
  - reflexivity.
  - reflexivity.
  - reflexivity.
Defined.

(** ** Trimming *)

Lemma length_trimStart (s : string) :
  String.length (JsString.trimStart s) <= String.length s.
Proof.
  induction s as [|ch s IH]; [reflexivity|]. cbn [JsString.trimStart].
  destruct (JsString.isWhiteSpace ch); cbn [String.length]; lia.
Qed.

Lemma length_trimEnd (s : string) :
  String.length (JsString.trimEnd s) <= String.length s.
Proof.
  induction s as [|ch s IH]; [reflexivity|]. cbn [JsString.trimEnd].
  destruct (JsString.trimEnd s) as [|k kept].
  - destruct (JsString.isWhiteSpace ch); cbn [String.length]; lia.
  - cbn [String.length] in *. lia.
Qed.

Lemma trimEnd_keeps (ch : ascii) (s : string) :
  JsString.isWhiteSpace ch = false ->
  JsString.trimEnd (String ch s) = String ch (JsString.trimEnd s).
Proof.
  intros Hch. cbn [JsString.trimEnd]. rewrite Hch.
  now destruct (JsString.trimEnd s).
Qed.

(** A string that [trim] leaves as it is has no white space to lose
    at either end. *)
Lemma trim_fixed (s : string) :
  JsString.trim s = s -> JsString.trimStart s = s /\ JsString.trimEnd s = s.
Proof.
  intros Htrim. unfold JsString.trim in Htrim.
  assert (Hstart : JsString.trimStart s = s).
  { destruct s as [|ch s]; [reflexivity|]. cbn [JsString.trimStart] in *.
    destruct (JsString.isWhiteSpace ch); [|reflexivity].
    pose proof (length_trimEnd (JsString.trimStart s)) as H1.
    pose proof (length_trimStart s) as H2.
    rewrite Htrim in H1. cbn [String.length] in H1. lia. }
  now rewrite Hstart in Htrim.
Qed.

Lemma existsb_reversed (f : string -> bool) (l : list string) :
  existsb f (rev l) = existsb f l.
Proof.
  induction l as [|x l IH]; [reflexivity|].
  cbn [rev existsb]. rewrite existsb_app, IH. cbn [existsb].
  now rewrite orb_false_r, orb_comm.
Qed.

(** X9: the segment root in front is optional: a path string without
    dash or surrounding white space in which no segment is root
    resolves to the same value with root/ written before it. *)
Theorem resolveNotePathToSegments_root_optional (fuel : nat) (store : Store)
    (notePath : string) (logErrors : bool) :
  notePath <> "" ->
  JsString.hasChar "-" notePath = false ->
  JsString.trim notePath = notePath ->
  JsString.includes (JsString.split "/" notePath) "root" = false ->
  returned (resolveNotePathToSegments fuel store ("root/" +:+ notePath) logErrors)
  = returned (resolveNotePathToSegments fuel store notePath logErrors).
Proof.
  intros Hne Hdash Htrim Hroot.
  destruct (trim_fixed notePath Htrim) as [_ Hend].
  assert (Hstrip : stripTabSuffix notePath = notePath).
  { unfold stripTabSuffix. now rewrite (split_without "-" notePath Hdash). }
  assert (Hstrip' : stripTabSuffix ("root/" +:+ notePath) = "root/" +:+ notePath).
  { unfold stripTabSuffix. rewrite (split_without "-"); [|exact Hdash].
    cbn [hd]. unfold JsString.trim.
    change ("root/" +:+ notePath)
      with (String "r" (String "o" (String "o" (String "t" (String "/" notePath))))).
    change (JsString.trimStart (String "r" ?s)) with (String "r" s).
    rewrite !trimEnd_keeps by reflexivity. now rewrite Hend. }
  assert (Hpath : pathOf ("root/" +:+ notePath) = pathOf notePath).
  { unfold pathOf, JsString.includes in *.
    change ("root/" +:+ notePath) with ("root" +:+ String "/" notePath).
    rewrite (split_app_sep "/" "root" notePath eq_refl). cbn [rev].
    rewrite existsb_app. cbn [existsb]. rewrite String.eqb_refl, orb_true_r.
    rewrite existsb_reversed, Hroot. reflexivity. }
  unfold resolveNotePathToSegments.
  rewrite !returned_after, Hstrip, Hstrip', Hpath.
  destruct notePath as [|ch rest]; [congruence|]. cbn [String.append String.length Nat.eqb].
  apply resolve_walk_returned_indep.
Qed.

Lemma resolveNotePathToSegments_root_optional_witness :
  returned (resolveNotePathToSegments 2 (steady scenario_after) ("root/" +:+ "A/B") true)
  = returned (resolveNotePathToSegments 2 (steady scenario_after) "A/B" true).
Proof.
  apply (resolveNotePathToSegments_root_optional 2 (steady scenario_after) "A/B" true).
  - discriminate.
  - reflexivity.
  - reflexivity.
  - reflexivity.
Defined.

(** ** Note ids of path strings *)

Lemma split_pieces_without (sep : ascii) (s : string) :
  Forall (fun piece => JsString.hasChar sep piece = false) (JsString.split sep s).
Proof.
  induction s as [|ch s IH]; cbn [JsString.split].
  - now constructor.
  - destruct (Ascii.eqb ch sep) eqn:E; [now constructor|].
    destruct (JsString.split sep s) as [|piece pieces]; [now repeat constructor; cbn; rewrite E|].
    apply Forall_cons_iff in IH as [Hpiece Hpieces].
    constructor; [|assumption]. cbn [JsString.hasChar]. now rewrite E, Hpiece.
Qed.

Lemma truthy_append_char (a : string) (ch : ascii) (b : string) :
  JsString.truthy (a +:+ String ch b) = true.
Proof. destruct a; reflexivity. Qed.

(** A joined list whose last element is not empty is not empty. *)
Lemma join_truthy (glue : ascii) (l : list string) (x : string) :
  JsString.truthy x = true ->
  JsString.truthy (JsString.join (String glue EmptyString) (l ++ [x])) = true.
Proof.
  intros Hx. destruct l as [|a l]; [exact Hx|].
  cbn [app]. destruct (l ++ [x]) as [|b more] eqn:E; [now destruct l|].
  rewrite join_cons.
  change (a +:+ String glue "" +:+ JsString.join (String glue "") (b :: more))
    with (a +:+ String glue (JsString.join (String glue "") (b :: more))).
  apply truthy_append_char.
Qed.

(** X10: for every path string that is not empty
    [getNoteIdFromNotePath] gives the note id that
    [getNoteIdAndParentIdFromNotePath] gives, root included; for the
    empty string it gives null. *)
Theorem getNoteIdFromNotePath_agrees (notePath : string) :
  getNoteIdFromNotePath notePath
  = if JsString.truthy notePath
    then Some (noteIdOf (getNoteIdAndParentIdFromNotePath notePath))
    else None.
Proof.
  unfold getNoteIdFromNotePath, getNoteIdAndParentIdFromNotePath.
  destruct (String.eqb_spec notePath "root") as [->|Hroot]; [reflexivity|].
  destruct (JsString.truthy notePath); [|reflexivity].
  now destruct (1 <? length (JsString.split "/" notePath))%nat.
Qed.

(** The note id read from a joined path whose last segment has
    neither slash nor dash and is not empty. *)
Lemma getNoteIdFromNotePath_join (l : list string) (id : string) :
  JsString.truthy id = true ->
  JsString.hasChar "/" id = false ->
  JsString.hasChar "-" id = false ->
  getNoteIdFromNotePath (JsString.join "/" (l ++ [id])) = Some id.
Proof.
  intros Htruthy Hslash Hdash. unfold getNoteIdFromNotePath.
  rewrite (join_truthy "/" l id Htruthy), nth_pred_length, (last_split_join "/").
  rewrite last_last, (split_without "/" id Hslash). cbn [List.last].
  now rewrite (split_without "-" id Hdash).
Qed.

(** X11: decoding what was joined: for note ids without slash, a
    path string joined from at least two of them, the last one without
    dash and not empty, is read back by
    [getNoteIdAndParentIdFromNotePath] as its last id with the id
    before it as parent, and by [getNoteIdFromNotePath] as its last
    id. *)
Theorem getNoteIdAndParentIdFromNotePath_join (ancestors : list string)
    (parentId id : string) :
  Forall (fun piece => JsString.hasChar "/" piece = false) (ancestors ++ [parentId; id]) ->
  JsString.hasChar "-" id = false ->
  JsString.truthy id = true ->
  getNoteIdAndParentIdFromNotePath (JsString.join "/" (ancestors ++ [parentId; id]))
  = mkNoteIdAndParentId parentId id /\
  getNoteIdFromNotePath (JsString.join "/" (ancestors ++ [parentId; id])) = Some id.
Proof.
  intros Hslash Hdash Htruthy.
  assert (Hid : JsString.hasChar "/" id = false).
  { apply Forall_app in Hslash as [_ Hlast].
    apply Forall_cons_iff in Hlast as [_ Hlast].
    now apply Forall_cons_iff in Hlast as [Hlast _]. }
  split.
  2:{ change (ancestors ++ [parentId; id]) with (ancestors ++ [parentId] ++ [id]).
      rewrite app_assoc. now apply getNoteIdFromNotePath_join. }
  assert (Hsplit : JsString.split "/" (JsString.join "/" (ancestors ++ [parentId; id]))
                   = ancestors ++ [parentId; id]).
  { apply (split_join "/"); [now destruct ancestors|exact Hslash]. }
  unfold getNoteIdAndParentIdFromNotePath.
  destruct (String.eqb_spec (JsString.join "/" (ancestors ++ [parentId; id])) "root")
    as [Hroot|_].
  { rewrite Hroot in Hsplit. apply (f_equal (@length string)) in Hsplit.
    rewrite length_app in Hsplit. cbn [length JsString.split] in Hsplit.
    cbn in Hsplit. lia. }
  assert (Happ : ancestors ++ [parentId; id] = (ancestors ++ [parentId]) ++ [id])
    by now rewrite <- app_assoc.
  assert (Htr : JsString.truthy (JsString.join "/" (ancestors ++ [parentId; id])) = true)
    by (rewrite Happ; now apply join_truthy).
  assert (Hlast : List.last (ancestors ++ [parentId; id]) "" = id)
    by (rewrite Happ; apply last_last).
  assert (Hlen : length (ancestors ++ [parentId; id]) = length ancestors + 2)
    by now rewrite length_app.
  assert (Hnth : nth (length ancestors + 2 - 2) (ancestors ++ [parentId; id]) "" = parentId).
  { replace (length ancestors + 2 - 2) with (length ancestors) by lia.
    rewrite app_nth2 by lia. now rewrite Nat.sub_diag. }
  rewrite Htr, Hsplit, nth_pred_length, Hlast, Hlen, Hnth.
  rewrite (split_without "-" id Hdash). cbn [hd].
  replace (1 <? length ancestors + 2)%nat with true
    by (symmetry; apply Nat.ltb_lt; lia).
  reflexivity.
Qed.

Lemma getNoteIdAndParentIdFromNotePath_join_witness :
  getNoteIdAndParentIdFromNotePath (JsString.join "/" (["root"] ++ ["A"; "B"]))
  = mkNoteIdAndParentId "A" "B" /\
  getNoteIdFromNotePath (JsString.join "/" (["root"] ++ ["A"; "B"])) = Some "B".
Proof.
  apply (getNoteIdAndParentIdFromNotePath_join ["root"] "A" "B").
  - repeat constructor.
  - reflexivity.
  - reflexivity.
Defined.

(** X12: [parseNotePath] always returns a sequence that starts at
    root and ends with the last segment of its input, and parsing the
    join of what it returned changes nothing. *)
Theorem parseNotePath_normal (notePath : string) :
  hd "" (parseNotePath notePath) = "root" /\
  List.last (parseNotePath notePath) "" = List.last (JsString.split "/" notePath) "" /\
  parseNotePath (JsString.join "/" (parseNotePath notePath)) = parseNotePath notePath.
Proof.
  assert (Hhd : hd "" (parseNotePath notePath) = "root").
  { unfold parseNotePath.
    destruct (String.eqb_spec (hd "" (JsString.split "/" notePath)) "root"); easy. }
  split; [exact Hhd|]. split.
  - unfold parseNotePath.
    destruct (String.eqb (hd "" (JsString.split "/" notePath)) "root"); [reflexivity|].
    destruct (split_cons "/" notePath) as (piece & pieces & ->).
    reflexivity.
  - assert (Hsplit : JsString.split "/" (JsString.join "/" (parseNotePath notePath))
                     = parseNotePath notePath).
    { apply (split_join "/").
      - unfold parseNotePath.
        destruct (String.eqb (hd "" (JsString.split "/" notePath)) "root");
          [apply split_not_nil|discriminate].
      - unfold parseNotePath.
        destruct (String.eqb (hd "" (JsString.split "/" notePath)) "root");
          [|constructor; [reflexivity|]]; apply split_pieces_without. }
    unfold parseNotePath at 1. rewrite Hsplit, Hhd. now rewrite String.eqb_refl.
Qed.

(** X14: the address hash is read back in its parts: for a note path
    and a tab id without dash, [#notePath-tabId] gives the two, and
    [#notePath] gives the path alone; an empty hash gives one empty
    part. *)
Theorem getHashValueFromAddress_parts :
  (forall notePath tabId,
      JsString.hasChar "-" notePath = false ->
      JsString.hasChar "-" tabId = false ->
      getHashValueFromAddress ("#" +:+ notePath +:+ "-" +:+ tabId) = [notePath; tabId]) /\
  (forall notePath,
      JsString.hasChar "-" notePath = false ->
      getHashValueFromAddress ("#" +:+ notePath) = [notePath]) /\
  getHashValueFromAddress "" = [""].
Proof.
  split; [|split; [|reflexivity]].
  - intros notePath tabId Hpath Htab. unfold getHashValueFromAddress.
    change (JsString.truthy ("#" +:+ notePath +:+ "-" +:+ tabId)) with true.
    change (JsStringMore.substr 1 ("#" +:+ notePath +:+ "-" +:+ tabId))
      with (notePath +:+ String "-" tabId).
    cbv iota.
    now rewrite (split_app_sep "-" _ _ Hpath), (split_without "-" _ Htab).
  - intros notePath Hpath. unfold getHashValueFromAddress.
    change (JsString.truthy ("#" +:+ notePath)) with true.
    change (JsStringMore.substr 1 ("#" +:+ notePath)) with notePath.
    cbv iota. now apply split_without.
Qed.

Lemma getHashValueFromAddress_parts_witness :
  getHashValueFromAddress ("#" +:+ "root/A/B" +:+ "-" +:+ "xyz1") = ["root/A/B"; "xyz1"].
Proof.
  apply (proj1 getHashValueFromAddress_parts "root/A/B" "xyz1"); reflexivity.
Defined.

(** ** getNotePath *)

Section NotePathOfNode.

Variable isRootNode : TreeNode -> bool.

(** The loop only pushes. *)
Lemma getNotePath_loop_app (node : TreeNode) :
  forall path, exists more, getNotePath_loop isRootNode node path = path ++ more.
Proof.
  induction node as [id|id up IH]; intros path; cbn [getNotePath_loop dataNoteId].
  - destruct (isRootNode (TopNode id)); [now exists [id]|].
    destruct (JsString.truthy id); [now exists [id]|].
    exists []. now rewrite app_nil_r.
  - destruct (isRootNode (ChildNode id up)); [now exists [id]|].
    destruct (JsString.truthy id).
    + destruct (IH (path ++ [id])) as [more ->]. exists (id :: more).
      now rewrite <- app_assoc.
    + apply IH.
Qed.

(** A node that has a note id is pushed first. *)
Lemma getNotePath_loop_first (node : TreeNode) :
  JsString.truthy (dataNoteId node) = true ->
  exists more, getNotePath_loop isRootNode node [] = dataNoteId node :: more.
Proof.
  intros Htruthy. destruct node as [id|id up]; cbn [getNotePath_loop dataNoteId] in *.
  - destruct (isRootNode (TopNode id)); [now exists []|].
    rewrite Htruthy. now exists [].
  - destruct (isRootNode (ChildNode id up)); [now exists []|].
    rewrite Htruthy. destruct (getNotePath_loop_app up ([] ++ [id])) as [more ->].
    now exists more.
Qed.

End NotePathOfNode.

(** X13: the note path of a tree node leads back to the node: when
    the node's note id is not empty and holds neither slash nor dash,
    [getNoteIdFromNotePath] of [getNotePath] of the node is this id,
    whatever the ancestors are and whichever node counts as root. *)
Theorem getNotePath_note_id (isRootNode : TreeNode -> bool) (node : TreeNode) :
  JsString.truthy (dataNoteId node) = true ->
  JsString.hasChar "/" (dataNoteId node) = false ->
  JsString.hasChar "-" (dataNoteId node) = false ->
  getNoteIdFromNotePath (snd (getNotePath isRootNode (Some node)))
  = Some (dataNoteId node).
Proof.
  intros Htruthy Hslash Hdash. cbn [getNotePath snd].
  destruct (getNotePath_loop_first isRootNode node Htruthy) as [more ->].
  cbn [rev]. now apply getNoteIdFromNotePath_join.
Qed.

Lemma getNotePath_note_id_witness :
  getNoteIdFromNotePath
    (snd (getNotePath (fun node => String.eqb (dataNoteId node) "root")
            (Some (ChildNode "B" (ChildNode "A" (ChildNode "root" (TopNode "")))))))
  = Some "B".
Proof.
  apply (getNotePath_note_id (fun node => String.eqb (dataNoteId node) "root")
           (ChildNode "B" (ChildNode "A" (ChildNode "root" (TopNode ""))))); reflexivity.
Defined.

(** ** getNotePathTitle *)

(** X15: the title of a path does not depend on a leading root/: for
    a path string that does not itself begin with root/,
    [getNotePathTitle] returns the same title with root/ written
    before it. *)
Theorem getNotePathTitle_root_optional (cache : gmap string Note)
    (branches : BranchSource) (notePath : string) :
  JsStringMore.startsWith "root/" notePath = false ->
  snd (getNotePathTitle cache branches ("root/" +:+ notePath))
  = snd (getNotePathTitle cache branches notePath).
Proof.
  intros Hstart. unfold getNotePathTitle. rewrite Hstart.
  change (JsStringMore.startsWith "root/" ("root/" +:+ notePath)) with true.
  change (JsStringMore.substr 5 ("root/" +:+ notePath)) with notePath.
  cbv iota.
  destruct (String.eqb notePath "root").
  - now destruct (getNoteTitle cache branches notePath None).
  - now destruct (getNotePathTitle_loop cache branches (JsString.split "/" notePath) "root" []).
Qed.

Lemma getNotePathTitle_root_optional_witness :
  snd (getNotePathTitle scenario_before (mkBranchSource (fun _ _ => None) (fun _ => None))
         ("root/" +:+ "A/B"))
  = snd (getNotePathTitle scenario_before (mkBranchSource (fun _ _ => None) (fun _ => None))
           "A/B").
Proof.
  apply (getNotePathTitle_root_optional scenario_before
           (mkBranchSource (fun _ _ => None) (fun _ => None)) "A/B").
  reflexivity.
Defined.

(** ** TabContext *)

(** X17: the methods keep the note id of a tab context in step with
    its note path: if the note id is the one the note path ends with
    before [setNote] or [entitiesReloadedEvent], it is so afterwards,
    however the call ends. *)
Theorem tabConsistent_kept (this : TabContext) :
  tabConsistent this ->
  (forall fuel env inputNotePath triggerSwitchEvent outcome,
      setNote fuel env inputNotePath triggerSwitchEvent this = Some outcome ->
      tabConsistent (context outcome)) /\
  (forall reloaded fetched isDeleted,
      tabConsistent (context (entitiesReloadedEvent reloaded fetched isDeleted this))).
Proof.
  intros Hthis. split.
  - intros fuel env input trigger outcome H. unfold setNote in H.
    destruct (resolveNotePath fuel (envStore env) input) as [[events [notePath|]]|];
      [| |discriminate]; [|now injection H as <-].
    destruct (JsString.truthy notePath); cbn [negb] in H; [|now injection H as <-].
    destruct (bool_decide (tabNotePath this = Some notePath)); [now injection H as <-|].
    destruct (checkNoteAccess env notePath); cbn [negb] in H; [|now injection H as <-].
    destruct (_ ≫= _) in H; injection H as <-; reflexivity.
  - intros reloaded fetched isDeleted. unfold entitiesReloadedEvent.
    destruct reloaded; [|exact Hthis].
    destruct fetched as [note|]; [|exact Hthis].
    destruct (isDeleted note); [reflexivity|exact Hthis].
Qed.

Lemma tabConsistent_kept_witness :
  tabConsistent
    (context (entitiesReloadedEvent true (Some (mkNote "A" "a" ["root"])) (fun _ => true)
                (mkTabContext "t1" (Some "root/A") (Some "A") None))).
Proof.
  apply (proj2 (tabConsistent_kept (mkTabContext "t1" (Some "root/A") (Some "A") None)
                  eq_refl)).
Defined.

(** X18: [setNote] called again with the same input, while the cache
    and the access check answer as before, changes nothing: the second
    call returns without throwing, leaves the tab context as the first
    call left it and triggers no event. *)
Theorem setNote_again (fuel : nat) (env : TabEnv) (inputNotePath : string)
    (first second : bool) (this : TabContext) (outcome : Outcome) :
  setNote fuel env inputNotePath first this = Some outcome ->
  exists again,
    setNote fuel env inputNotePath second (context outcome) = Some again /\
    context again = context outcome /\
    threw again = false /\
    existsb isEvent (effects again) = false.
Proof.
  intros H. unfold setNote in *.
  assert (Hquiet : forall events more,
             existsb isEvent (map Diagnostic events ++ more) = existsb isEvent more).
  { intros events more. rewrite existsb_app.
    replace (existsb isEvent (map Diagnostic events)) with false; [reflexivity|].
    symmetry. induction events; [reflexivity|assumption]. }
  destruct (resolveNotePath fuel (envStore env) inputNotePath)
    as [[events [notePath|]]|]; [| |discriminate].
  2:{ injection H as <-. eexists. split; [reflexivity|]. cbn [context threw effects].
      now rewrite Hquiet. }
  destruct (JsString.truthy notePath); cbn [negb] in *.
  2:{ injection H as <-. eexists. split; [reflexivity|]. cbn [context threw effects].
      now rewrite Hquiet. }
  destruct (bool_decide (tabNotePath this = Some notePath)) eqn:Hsame.
  { injection H as <-. cbn [context]. rewrite Hsame.
    eexists. split; [reflexivity|]. cbn [context threw effects].
    rewrite <- (app_nil_r (map Diagnostic events)). now rewrite Hquiet. }
  destruct (checkNoteAccess env notePath); cbn [negb] in *.
  2:{ injection H as <-. cbn [context]. rewrite Hsame.
      eexists. split; [reflexivity|]. cbn [context threw effects].
      rewrite <- (app_nil_r (map Diagnostic events)). now rewrite Hquiet. }
  destruct (_ ≫= _) in H; injection H as <-;
    cbn [context tabNotePath]; rewrite bool_decide_eq_true_2 by reflexivity;
    (eexists; split; [reflexivity|]); cbn [context threw effects];
    rewrite <- (app_nil_r (map Diagnostic events)); now rewrite Hquiet.
Qed.

Lemma setNote_again_witness :
  exists again,
    setNote 2 (mkTabEnv (steady scenario_after) (fun _ => true) scenario_after
                 (fun _ => false) false)
      "root/A/B" false
      (mkTabContext "t1" (Some "root/C/B") (Some "B") (Some false)) = Some again /\
    context again = mkTabContext "t1" (Some "root/C/B") (Some "B") (Some false) /\
    threw again = false /\
    existsb isEvent (effects again) = false.
Proof.
  apply (setNote_again 2 (mkTabEnv (steady scenario_after) (fun _ => true) scenario_after
                            (fun _ => false) false)
           "root/A/B" true false (mkTabContext "t1" None None None)
           (mkOutcome (mkTabContext "t1" (Some "root/C/B") (Some "B") (Some false))
              (map Diagnostic
                 [ConsoleLog "Did not find parent A (a) for child B (b), available parents: C (c)"]
               ++ [BeforeNoteSwitch; CloseActiveDialog; SetTimeout 5000 "root/C/B";
                   TabNoteSwitched (Some "root/C/B")])
              false)).
  reflexivity.
Defined.

(** ** Migrations *)

Module MigrationFacts.

Import Migration.

Lemma insert_Permutation (mig : MigrationRecord) (l : list MigrationRecord) :
  Permutation (insert mig l) (mig :: l).
Proof.
  induction l as [|next l IH]; cbn [insert]; [reflexivity|].
  destruct (dbVersion mig <=? dbVersion next)%nat; [reflexivity|].
  rewrite IH. apply perm_swap.
Qed.

Lemma sort_Permutation (l : list MigrationRecord) : Permutation (sort l) l.
Proof.
  induction l as [|mig l IH]; [reflexivity|].
  unfold sort in *. cbn [fold_right]. now rewrite insert_Permutation, IH.
Qed.

Lemma insert_Sorted (mig : MigrationRecord) (l : list MigrationRecord) :
  Sorted byVersion l -> Sorted byVersion (insert mig l).
Proof.
  induction l as [|next l IH]; intros Hsorted; cbn [insert].
  - repeat constructor.
  - destruct (Nat.leb_spec (dbVersion mig) (dbVersion next)) as [Hle|Hgt].
    + constructor; [assumption|]. now constructor.
    + inversion Hsorted as [|? ? Hl Hhd]; subst.
      constructor; [now apply IH|].
      destruct l as [|third l]; cbn [insert].
      * constructor. unfold byVersion. lia.
      * destruct (dbVersion mig <=? dbVersion third)%nat.
        -- constructor. unfold byVersion. lia.
        -- constructor. now inversion Hhd.
Qed.

Lemma sort_Sorted (l : list MigrationRecord) : Sorted byVersion (sort l).
Proof.
  induction l as [|mig l IH]; [constructor|].
  unfold sort in *. cbn [fold_right]. now apply insert_Sorted.
Qed.

(** A run changes the [success] and [error] fields only. *)
Lemma runAll_pending (attempt : MigrationRecord -> option string)
    (l : list MigrationRecord) :
  map pending (fst (runAll attempt l)) = map pending l.
Proof.
  induction l as [|mig l IH]; [reflexivity|]. cbn [runAll].
  destruct (attempt mig); [reflexivity|].
  destruct (runAll attempt l) as [later actions]. cbn [fst map] in *.
  now rewrite IH.
Qed.

Lemma pending_dbVersion (l : list MigrationRecord) :
  map dbVersion (map pending l) = map dbVersion l.
Proof. rewrite map_map. reflexivity. Qed.

(** What the directory pass collects. *)
Lemma collect_sound (current : option nat) (files : list string) :
  Forall (fun mig =>
            pending mig = mig /\
            In (file mig) files /\
            matchFile (file mig) = Some (dbVersion mig, name mig, type mig) /\
            exists c, current = Some c /\ c < dbVersion mig)
         (collect current files).
Proof.
  induction files as [|f files IH]; cbn [collect]; [constructor|].
  assert (Hmore : Forall (fun mig =>
            pending mig = mig /\
            In (file mig) (f :: files) /\
            matchFile (file mig) = Some (dbVersion mig, name mig, type mig) /\
            exists c, current = Some c /\ c < dbVersion mig)
         (collect current files)).
  { eapply Forall_impl; [exact IH|]. intros mig (H1 & H2 & H3 & H4).
    split; [assumption|]. split; [now right|]. now split. }
  destruct (matchFile f) as [[[version nm] ty]|] eqn:Hmatch; [|exact Hmore].
  destruct current as [c|]; [|exact Hmore].
  destruct (Nat.ltb_spec c version) as [Hlt|_]; [|exact Hmore].
  constructor; [|exact Hmore]. cbn.
  split; [reflexivity|]. split; [now left|]. split; [assumption|]. now exists c.
Qed.

Lemma collect_pending (current : option nat) (files : list string) :
  map pending (collect current files) = collect current files.
Proof.
  pose proof (collect_sound current files) as Hsound.
  induction Hsound as [|mig l (Hp & _) _ IH]; [reflexivity|].
  cbn [map]. now rewrite Hp, IH.
Qed.

(** The files of the records collected are the files that qualify, in
    the order of the directory. *)
Lemma collect_files (current : option nat) (files : list string) :
  map file (collect current files) = List.filter (qualifies current) files.
Proof.
  induction files as [|f files IH]; [reflexivity|].
  cbn [collect List.filter]. unfold qualifies at 1.
  destruct (matchFile f) as [[[version nm] ty]|]; [|exact IH].
  destruct current as [c|]; [|exact IH].
  destruct (c <? version)%nat; [|exact IH]. cbn [map file]. now rewrite IH.
Qed.

Lemma Sorted_map_dbVersion (l : list MigrationRecord) :
  Sorted byVersion l -> Sorted le (map dbVersion l).
Proof.
  induction 1 as [|mig l Hl IH Hhd]; [constructor|].
  cbn [map]. constructor; [assumption|].
  destruct Hhd; constructor. assumption.
Qed.

End MigrationFacts.

(** X19: the migrations that [migrate] returns are the files of the
    directory that match the pattern with a version above the current
    one, each file once and no other, in ascending order of version,
    each with the version, name and type the pattern reads from its
    file name; when the current version is not a number there is
    none. *)
Theorem migrate_sorted_pending (currentDbVersion : option nat) (files : list string)
    (attempt : Migration.MigrationRecord -> option string) (upToDate : bool) :
  let result := fst (Migration.migrate currentDbVersion files attempt upToDate) in
  Sorted le (map Migration.dbVersion result) /\
  Permutation (map Migration.file result)
    (List.filter (Migration.qualifies currentDbVersion) files) /\
  Forall (fun mig =>
            Migration.matchFile (Migration.file mig)
            = Some (Migration.dbVersion mig, Migration.name mig, Migration.type mig) /\
            exists current, currentDbVersion = Some current /\
                            current < Migration.dbVersion mig)
         result.
Proof.
  cbn zeta. unfold Migration.migrate.
  pose proof (MigrationFacts.runAll_pending attempt
                (Migration.sort (Migration.collect currentDbVersion files))) as Hrun.
  destruct (Migration.runAll attempt
              (Migration.sort (Migration.collect currentDbVersion files)))
    as [result actions].
  cbn [fst] in *.
  assert (Hperm : Permutation (map Migration.pending result)
                    (Migration.collect currentDbVersion files)).
  { rewrite Hrun.
    transitivity (map Migration.pending (Migration.collect currentDbVersion files)).
    - apply Permutation_map, MigrationFacts.sort_Permutation.
    - now rewrite MigrationFacts.collect_pending. }
  split; [|split].
  - rewrite <- MigrationFacts.pending_dbVersion, Hrun, MigrationFacts.pending_dbVersion.
    apply MigrationFacts.Sorted_map_dbVersion, MigrationFacts.sort_Sorted.
  - rewrite <- (MigrationFacts.collect_files currentDbVersion files).
    replace (map Migration.file result)
      with (map Migration.file (map Migration.pending result))
      by (rewrite map_map; reflexivity).
    now apply Permutation_map.
  - apply Forall_forall. intros mig Hin. apply list_elem_of_In in Hin.
    apply (in_map Migration.pending) in Hin.
    apply (Permutation_in _ Hperm) in Hin. apply list_elem_of_In in Hin.
    pose proof (MigrationFacts.collect_sound currentDbVersion files) as Hsound.
    rewrite Forall_forall in Hsound.
    destruct (Hsound _ Hin) as (_ & _ & Hmatch & Hcurrent). now split.
Qed.

Module MigrationRun.

Import Migration.

(** The shape of what a run returns, over records as the directory
    pass makes them. *)
Lemma runAll_shape (attempt : MigrationRecord -> option string)
    (l : list MigrationRecord) :
  Forall (fun mig => pending mig = mig) l ->
  exists ok bad untouched,
    fst (runAll attempt l) = ok ++ bad ++ untouched /\
    Forall (fun mig => success mig = Some true /\ attempt (pending mig) = None) ok /\
    (bad = [] /\ untouched = [] \/
     exists mig stack,
       bad = [mig] /\ success mig = Some false /\ error mig = Some stack /\
       attempt (pending mig) = Some stack) /\
    Forall (fun mig => success mig = None) untouched.
Proof.
  induction 1 as [|mig l Hmig Hl (ok & bad & untouched & Hres & Hok & Hbad & Hun)].
  - exists [], [], []. split; [reflexivity|]. split; [constructor|].
    split; [now left|constructor].
  - cbn [runAll]. destruct (attempt mig) as [stack|] eqn:Hattempt.
    + exists [], [mkMigrationRecord (dbVersion mig) (name mig) (file mig) (type mig)
                    (Some false) (Some stack)], l.
      split; [reflexivity|]. split; [constructor|]. split.
      * right. eexists _, stack. split; [reflexivity|]. split; [reflexivity|].
        split; [reflexivity|].
        change (attempt (pending mig) = Some stack). now rewrite Hmig.
      * eapply Forall_impl; [exact Hl|]. intros m Hm. now rewrite <- Hm.
    + destruct (runAll attempt l) as [later actions]. cbn [fst] in *.
      exists (mkMigrationRecord (dbVersion mig) (name mig) (file mig) (type mig)
                (Some true) (error mig) :: ok), bad, untouched.
      split; [now rewrite Hres|]. split; [|now split].
      constructor; [|exact Hok]. split; [reflexivity|].
      change (attempt (pending mig) = None). now rewrite Hmig.
Qed.

Lemma runAll_foreign_keys (attempt : MigrationRecord -> option string)
    (l : list MigrationRecord) :
  Forall (fun mig => success mig = None) l ->
  length (List.filter isForeignKeysOn (snd (runAll attempt l)))
  = length (List.filter attempted (fst (runAll attempt l))).
Proof.
  induction 1 as [|mig l Hmig Hl IH]; [reflexivity|]. cbn [runAll].
  destruct (attempt mig) as [stack|].
  - cbn [fst snd List.filter isForeignKeysOn attempted success length].
    f_equal. clear IH. induction Hl as [|m l Hm _ IH]; [reflexivity|].
    cbn [List.filter]. unfold attempted at 1. now rewrite Hm.
  - destruct (runAll attempt l) as [later actions].
    cbn [fst snd app List.filter isForeignKeysOn attempted success length] in *.
    now rewrite IH.
Qed.

Lemma insert_unset (mig : MigrationRecord) (l : list MigrationRecord) :
  success mig = None -> Forall (fun m => success m = None) l ->
  Forall (fun m => success m = None) (insert mig l).
Proof.
  intros Hmig. induction 1 as [|next l Hnext Hl IH]; cbn [insert].
  - now repeat constructor.
  - destruct (dbVersion mig <=? dbVersion next)%nat; repeat (constructor; try assumption).
Qed.

Lemma sort_collect_unset (current : option nat) (files : list string) :
  Forall (fun m => success m = None) (sort (collect current files)).
Proof.
  pose proof (MigrationFacts.collect_sound current files) as Hsound.
  induction Hsound as [|mig l (Hp & _) _ IH]; [constructor|].
  unfold sort in *. cbn [fold_right]. apply insert_unset; [|exact IH].
  now rewrite <- Hp.
Qed.

End MigrationRun.

(** X20: a run stops at the first migration that fails: what
    [migrate] returns is made of migrations whose guarded block
    completed, marked successful, then at most one whose guarded block
    threw, marked failed with the stack of its exception, then
    migrations that were not attempted, whose [success] is unset. *)
Theorem migrate_stops_at_failure (currentDbVersion : option nat) (files : list string)
    (attempt : Migration.MigrationRecord -> option string) (upToDate : bool) :
  exists ok bad untouched,
    fst (Migration.migrate currentDbVersion files attempt upToDate)
    = ok ++ bad ++ untouched /\
    Forall (fun mig => Migration.success mig = Some true /\
                       attempt (Migration.pending mig) = None) ok /\
    (bad = [] /\ untouched = [] \/
     exists mig stack,
       bad = [mig] /\ Migration.success mig = Some false /\
       Migration.error mig = Some stack /\
       attempt (Migration.pending mig) = Some stack) /\
    Forall (fun mig => Migration.success mig = None) untouched.
Proof.
  unfold Migration.migrate.
  assert (Hfixed : Forall (fun mig => Migration.pending mig = mig)
                     (Migration.sort (Migration.collect currentDbVersion files))).
  { apply (Permutation_Forall
             (Permutation_sym (MigrationFacts.sort_Permutation _))).
    eapply Forall_impl; [apply MigrationFacts.collect_sound|]. now intros mig [H _]. }
  destruct (MigrationRun.runAll_shape attempt _ Hfixed)
    as (ok & bad & untouched & Hres & Hok & Hbad & Huntouched).
  destruct (Migration.runAll attempt
              (Migration.sort (Migration.collect currentDbVersion files)))
    as [result actions].
  cbn [fst] in *. now exists ok, bad, untouched.
Qed.

(** X21: the foreign keys are switched on again after every
    migration that was attempted, failed or not: [migrate] runs the
    finally block as many times as it returns migrations whose
    [success] is set. *)
Theorem migrate_foreign_keys (currentDbVersion : option nat) (files : list string)
    (attempt : Migration.MigrationRecord -> option string) (upToDate : bool) :
  length (List.filter Migration.isForeignKeysOn
            (snd (Migration.migrate currentDbVersion files attempt upToDate)))
  = length (List.filter Migration.attempted
              (fst (Migration.migrate currentDbVersion files attempt upToDate))).
Proof.
  unfold Migration.migrate.
  pose proof (MigrationRun.runAll_foreign_keys attempt
                (Migration.sort (Migration.collect currentDbVersion files))
                (MigrationRun.sort_collect_unset currentDbVersion files)) as Hrun.
  destruct (Migration.runAll attempt
              (Migration.sort (Migration.collect currentDbVersion files)))
    as [result actions].
  cbn [fst snd app] in *. cbn [List.filter Migration.isForeignKeysOn].
  rewrite List.filter_app, length_app, Hrun.
  destruct upToDate; cbn; lia.
Qed.

(** ** Where setNote lands *)

Lemma hasChar_split (ch sep : ascii) (s : string) :
  JsString.hasChar ch s = false ->
  Forall (fun piece => JsString.hasChar ch piece = false) (JsString.split sep s).
Proof.
  induction s as [|c s IH]; cbn [JsString.split JsString.hasChar]; intros H.
  - now repeat constructor.
  - apply orb_false_iff in H as [Hc Hs]. specialize (IH Hs).
    destruct (Ascii.eqb c sep); [now constructor|].
    destruct (JsString.split sep s) as [|piece pieces]; [now repeat constructor; cbn; rewrite Hc|].
    apply Forall_cons_iff in IH as [Hpiece Hpieces].
    constructor; [|assumption]. cbn [JsString.hasChar]. now rewrite Hc, Hpiece.
Qed.

Lemma hasChar_trimStart (ch : ascii) (s : string) :
  JsString.hasChar ch s = false -> JsString.hasChar ch (JsString.trimStart s) = false.
Proof.
  induction s as [|c s IH]; [easy|]. cbn [JsString.trimStart]. intros H.
  destruct (JsString.isWhiteSpace c); [|exact H].
  apply IH. cbn [JsString.hasChar] in H. now apply orb_false_iff in H.
Qed.

Lemma hasChar_trimEnd (ch : ascii) (s : string) :
  JsString.hasChar ch s = false -> JsString.hasChar ch (JsString.trimEnd s) = false.
Proof.
  induction s as [|c s IH]; [easy|]. cbn [JsString.trimEnd JsString.hasChar]. intros H.
  apply orb_false_iff in H as [Hc Hs]. specialize (IH Hs).
  destruct (JsString.trimEnd s) as [|k kept].
  - destruct (JsString.isWhiteSpace c); [reflexivity|]. cbn. now rewrite Hc.
  - cbn [JsString.hasChar] in *. now rewrite Hc, IH.
Qed.

Lemma last_In_cons (l : list string) :
  forall x, In (List.last l x) (x :: l).
Proof.
  induction l as [|y l IH]; intros x; [now left|].
  right. rewrite last_cons_default. apply IH.
Qed.

(** What is left of an input after the suffix is cut holds no dash. *)
Lemma stripTabSuffix_no_dash (raw : string) :
  JsString.hasChar "-" (stripTabSuffix raw) = false.
Proof.
  unfold stripTabSuffix, JsString.trim.
  apply hasChar_trimEnd, hasChar_trimStart.
  pose proof (split_pieces_without "-" raw) as Hall.
  destruct (JsString.split "-" raw) as [|piece pieces]; [reflexivity|].
  now apply Forall_cons_iff in Hall as [Hpiece _].
Qed.

(** A walk only adds to [effectivePath]. *)
Lemma resolve_walk_extends (fuel : nat) (store : Store) (logErrors : bool)
    (notePath : string) (rest : list string) :
  forall awaits effectivePath childNoteId events segments,
    resolve_walk fuel store logErrors notePath awaits rest effectivePath childNoteId
    = Some (events, Some segments) ->
    exists added, segments = rev (effectivePath ++ added).
Proof.
  induction rest as [|parentNoteId rest IH]; intros awaits eff child events segments H.
  - cbn [resolve_walk] in H. exists []. rewrite app_nil_r. congruence.
  - cbn [resolve_walk] in H.
    assert (Hnext : forall k,
               resolve_walk fuel store logErrors notePath k rest (eff ++ [parentNoteId])
                 (Some parentNoteId) = Some (events, Some segments) ->
               exists added, segments = rev (eff ++ added)).
    { intros k Hk. apply IH in Hk as [added ->]. exists (parentNoteId :: added).
      now rewrite <- app_assoc. }
    destruct child as [childId|]; [|now apply (Hnext awaits)].
    destruct (getNote (store awaits) childId) as [note|]; [|discriminate].
    destruct (getParentNotes (store awaits) note) as [|first others]; [discriminate|].
    destruct (existsb _ (first :: others)); [now apply (Hnext (S awaits))|].
    destruct (getSomeNotePath fuel (store awaits) first) as [[diagnostics found]|];
      [|destruct logErrors; cbn in H; discriminate H].
    cbn [after] in H.
    match type of H with
    | Some (_, Some (rev ?l)) = _ => assert (Hsegments : segments = rev l) by congruence
    end.
    rewrite Hsegments. destruct found as [found|]; [|exists []; now rewrite app_nil_r].
    destruct (JsString.truthy found); [now eexists|exists []; now rewrite app_nil_r].
Qed.

(** The sequence a resolution returns ends with the last segment of
    the input. *)
Lemma resolveNotePathToSegments_target (fuel : nat) (store : Store) (raw : string)
    (logErrors : bool) (segments : list string) :
  returned (resolveNotePathToSegments fuel store raw logErrors) = Some (Some segments) ->
  exists before,
    segments = before ++ [List.last (JsString.split "/" (stripTabSuffix raw)) ""].
Proof.
  intros H.
  assert (Hne : stripTabSuffix raw <> "").
  { intros Hempty. unfold resolveNotePathToSegments in H.
    rewrite returned_after, Hempty in H. discriminate H. }
  destruct (resolveNotePathToSegments_walk fuel store raw logErrors Hne)
    as (target & up & Hpath & Hwalk).
  rewrite Hwalk in H.
  destruct (resolve_walk fuel store logErrors (stripTabSuffix raw) 0 up [target]
              (Some target)) as [[events [segs|]]|] eqn:Hrun; try discriminate H.
  assert (Hsegs : segs = segments) by (cbn in H; congruence). subst segs.
  apply resolve_walk_extends in Hrun as [added ->].
  assert (Htarget : target = List.last (JsString.split "/" (stripTabSuffix raw)) "").
  { unfold pathOf in Hpath.
    assert (Hhd : hd "" (rev (JsString.split "/" (stripTabSuffix raw))) = target).
    { destruct (split_cons "/" (stripTabSuffix raw)) as (piece & pieces & E).
      rewrite E in *. destruct (JsString.includes _ _).
      - now rewrite Hpath.
      - destruct (rev (piece :: pieces)) as [|x xs] eqn:Hrev.
        + apply (f_equal (@length string)) in Hrev. rewrite length_rev in Hrev.
          discriminate Hrev.
        + cbn [app] in Hpath. now injection Hpath as -> _. }
    now rewrite hd_rev_last in Hhd. }
  exists (rev added). cbn [app rev]. now rewrite Htarget.
Qed.

(** X16: a tab that [setNote] switches shows the note the input
    names: whatever the cache holds and whichever path the resolution
    returns, either the tab context is left as it was, or its note path
    is the resolved path and its note id is the last segment of the
    input, the tab suffix cut. *)
Theorem setNote_lands_on_target (fuel : nat) (env : TabEnv) (inputNotePath : string)
    (triggerSwitchEvent : bool) (this : TabContext) (outcome : Outcome) :
  setNote fuel env inputNotePath triggerSwitchEvent this = Some outcome ->
  context outcome = this \/
  exists notePath,
    returned (resolveNotePath fuel (envStore env) inputNotePath) = Some (Some notePath) /\
    tabNotePath (context outcome) = Some notePath /\
    tabNoteId (context outcome)
    = Some (List.last (JsString.split "/" (stripTabSuffix inputNotePath)) "").
Proof.
  intros H. unfold setNote in H.
  pose proof (resolveNotePath_returned fuel (envStore env) inputNotePath) as Hret.
  pose proof (resolveNotePathToSegments_target fuel (envStore env) inputNotePath true)
    as Htarget.
  destruct (resolveNotePath fuel (envStore env) inputNotePath)
    as [[events [notePath|]]|]; [| |discriminate]; [|left; now injection H as <-].
  destruct (JsString.truthy notePath) eqn:Htruthy; cbn [negb] in H;
    [|left; now injection H as <-].
  destruct (bool_decide (tabNotePath this = Some notePath)); [left; now injection H as <-|].
  destruct (checkNoteAccess env notePath); cbn [negb] in H; [|left; now injection H as <-].
  right. exists notePath. split; [reflexivity|].
  assert (Hctx : context outcome
                 = mkTabContext (tabId this) (Some notePath)
                     (getNoteIdFromNotePath notePath) (Some false)).
  { destruct (_ ≫= _) in H; now injection H as <-. }
  rewrite Hctx. cbn [tabNotePath tabNoteId]. split; [reflexivity|].
  cbn [returned option_map snd] in Hret.
  destruct (returned (resolveNotePathToSegments fuel (envStore env) inputNotePath true))
    as [[segments|]|]; try discriminate Hret.
  destruct (Htarget segments eq_refl) as [before ->].
  cbn [option_map] in Hret. injection Hret as ->.
  unfold getNoteIdFromNotePath. rewrite Htruthy, nth_pred_length, (last_split_join "/").
  rewrite last_last.
  pose proof (split_pieces_without "/" (stripTabSuffix inputNotePath)) as Hslash.
  pose proof (hasChar_split "-" "/" _ (stripTabSuffix_no_dash inputNotePath)) as Hdash.
  destruct (split_cons "/" (stripTabSuffix inputNotePath)) as (piece & pieces & E).
  rewrite E in *.
  assert (Hlast : In (List.last (piece :: pieces) "") (piece :: pieces))
    by (rewrite last_cons_default; apply last_In_cons).
  apply list_elem_of_In in Hlast.
  rewrite Forall_forall in Hslash, Hdash.
  rewrite (split_without "/" _ (Hslash _ Hlast)).
  change (List.last [List.last (piece :: pieces) ""] "")
    with (List.last (piece :: pieces) "").
  now rewrite (split_without "-" _ (Hdash _ Hlast)).
Qed.

Lemma setNote_lands_on_target_witness :
  mkTabContext "t1" (Some "root/C/B") (Some "B") (Some false)
  = mkTabContext "t1" None None None \/
  exists notePath,
    returned (resolveNotePath 2 (steady scenario_after) "root/A/B-t1") = Some (Some notePath) /\
    Some "root/C/B" = Some notePath /\
    Some "B" = Some (List.last (JsString.split "/" (stripTabSuffix "root/A/B-t1")) "").
Proof.
  apply (setNote_lands_on_target 2
           (mkTabEnv (steady scenario_after) (fun _ => true) scenario_after
              (fun _ => false) false)
           "root/A/B-t1" true (mkTabContext "t1" None None None)
           (mkOutcome (mkTabContext "t1" (Some "root/C/B") (Some "B") (Some false))
              (map Diagnostic
                 [ConsoleLog "Did not find parent A (a) for child B (b), available parents: C (c)"]
               ++ [BeforeNoteSwitch; CloseActiveDialog; SetTimeout 5000 "root/C/B";
                   TabNoteSwitched (Some "root/C/B")])
              false)).
  reflexivity.
Defined.

(** ** The pattern of migration files *)

Lemma spanName_app (nm : string) (ch : ascii) (rest : string) :
  Migration.allNameChars nm = true ->
  Migration.isNameChar ch = false ->
  Migration.spanName (nm +:+ String ch rest) = (nm, String ch rest).
Proof.
  intros Hnm Hch. induction nm as [|c nm IH].
  - change ("" +:+ String ch rest) with (String ch rest).
    cbn [Migration.spanName]. now rewrite Hch.
  - change (String c nm +:+ String ch rest) with (String c (nm +:+ String ch rest)).
    cbn [Migration.allNameChars] in Hnm. apply andb_true_iff in Hnm as [Hc Hnm].
    cbn [Migration.spanName]. now rewrite Hc, (IH Hnm).
Qed.

(** X22: a file named by four digits, two underscores, a name of
    letters, digits, underscores and spaces, a dot and sql or js
    matches the pattern as a whole: its version is the number the four
    digits write in decimal, leading zeros included, its name the name
    and its type the extension. *)
Theorem matchFile_standard (d1 d2 d3 d4 : ascii) (nm ext : string) :
  Migration.isDigit d1 = true -> Migration.isDigit d2 = true ->
  Migration.isDigit d3 = true -> Migration.isDigit d4 = true ->
  nm <> "" ->
  Migration.allNameChars nm = true ->
  ext = "sql" \/ ext = "js" ->
  Migration.matchFile
    (String d1 (String d2 (String d3 (String d4 ("__" +:+ nm +:+ "." +:+ ext)))))
  = Some (1000 * Migration.digitValue d1 + 100 * Migration.digitValue d2
          + 10 * Migration.digitValue d3 + Migration.digitValue d4, nm, ext).
Proof.
  intros H1 H2 H3 H4 Hne Hnm Hext.
  change ("__" +:+ nm +:+ "." +:+ ext) with (String "_" (String "_" (nm +:+ String "." ext))).
  cbn [Migration.matchFile Migration.matchHere]. rewrite H1, H2, H3, H4. cbn [andb].
  rewrite (spanName_app nm "." ext Hnm eq_refl).
  destruct nm as [|c nm]; [congruence|].
  now destruct Hext as [-> | ->].
Qed.

Lemma matchFile_standard_witness :
  Migration.matchFile "0159__add_index.sql" = Some (159, "add_index", "sql").
Proof.
  apply (matchFile_standard "0" "1" "5" "9" "add_index" "sql"); try reflexivity.
  - discriminate.
  - now left.
Defined.

(** ** The repair *)

(** The path [getSomeNotePath] returns along a chain of first parents
    that ends at root: the ids of the chain, root first. *)
Lemma getSomeNotePath_loop_climbs (cache : gmap string Note) (chain : list Note) :
  forall fuel path note,
    firstParentsToRoot cache note chain = true ->
    length chain < fuel ->
    getSomeNotePath_loop fuel cache path note
    = Some ([], Some (JsString.join "/" (rev (path ++ map noteId (note :: chain))))).
Proof.
  induction chain as [|next more IH]; intros fuel path note Hclimb Hfuel;
    (destruct fuel as [|fuel]; [inversion Hfuel|]);
    cbn [firstParentsToRoot getSomeNotePath_loop] in *.
  - rewrite Hclimb. apply String.eqb_eq in Hclimb. cbn [map]. now rewrite Hclimb.
  - apply andb_true_iff in Hclimb as [Hroot Hclimb].
    apply negb_true_iff in Hroot. rewrite Hroot.
    destruct (getParentNotes cache note) as [|first others]; [discriminate|].
    apply andb_true_iff in Hclimb as [Hfirst Hclimb].
    apply bool_decide_eq_true in Hfirst. subst first.
    rewrite (IH fuel (path ++ [noteId note]) next Hclimb) by (cbn [length] in Hfuel; lia).
    cbn [map]. now rewrite <- app_assoc.
Qed.

(** The last note of a chain of first parents up to root is root. *)
Lemma firstParentsToRoot_root (cache : gmap string Note) (chain : list Note) :
  forall note,
    firstParentsToRoot cache note chain = true ->
    hd "" (rev (map noteId (note :: chain))) = "root".
Proof.
  induction chain as [|next more IH]; intros note Hclimb;
    cbn [firstParentsToRoot] in Hclimb.
  - apply String.eqb_eq in Hclimb. now cbn; rewrite Hclimb.
  - apply andb_true_iff in Hclimb as [_ Hclimb].
    destruct (getParentNotes cache note) as [|first others]; [discriminate|].
    apply andb_true_iff in Hclimb as [_ Hclimb].
    specialize (IH next Hclimb). rewrite hd_rev_last in *.
    cbn [map] in *. now rewrite last_cons_default, <- (last_cons_default _ _ "").
Qed.

(** When following first parents from the first parent of the break
    point never leaves a set of notes that are not root, the
    resolution does not return. *)
Lemma resolveNotePathToSegments_diverges (fuel : nat) (cache : gmap string Note)
    (raw : string) (logErrors : bool) (accepted : list string) (candidate : string)
    (rest : list string) (child first : Note) (others notes : list Note) :
  stripTabSuffix raw <> "" ->
  pathOf (stripTabSuffix raw) = accepted ++ candidate :: rest ->
  accepted <> [] ->
  chainUp cache accepted = true ->
  getNote cache (List.last accepted "") = Some child ->
  getParentNotes cache child = first :: others ->
  existsb (fun p => String.eqb (noteId p) candidate) (first :: others) = false ->
  firstParentClosed cache notes = true ->
  first ∈ notes ->
  returned (resolveNotePathToSegments fuel (steady cache) raw logErrors) = None.
Proof.
  intros Hne Hpath Hacc Hchain Hchild Hpar Hnone Hclosed Hin.
  rewrite (resolveNotePathToSegments_at_break fuel cache raw logErrors accepted
             (candidate :: rest) Hne Hpath Hacc Hchain).
  cbn [resolve_walk]. unfold steady.
  rewrite Hchild, Hpar, Hnone, returned_after. unfold getSomeNotePath.
  now rewrite (getSomeNotePath_loop_closed cache notes Hclosed fuel [] first Hin).
Qed.

(** C1 (repair correctness) fails as stated: B's parents do not
    include the candidate A, the first parent C of B lies on the cycle
    of C and D, and the resolution of root/A/B gives no result,
    whatever the number of iterations allowed; no prefix replaces
    anything. *)
Lemma resolve_repair_counterexample :
  getNote scenario_cyclic "B" = Some (mkNote "B" "b" ["C"]) /\
  getParentNotes scenario_cyclic (mkNote "B" "b" ["C"]) = [mkNote "C" "c" ["D"]] /\
  ~ exists fuel result,
      resolveNotePathToSegments fuel (steady scenario_cyclic) "root/A/B" true
      = Some result.
Proof.
  split; [reflexivity|]. split; [reflexivity|].
  intros (fuel & result & H).
  pose proof (resolveNotePathToSegments_diverges fuel scenario_cyclic "root/A/B" true
                ["B"] "A" ["root"] (mkNote "B" "b" ["C"]) (mkNote "C" "c" ["D"]) []
                [mkNote "C" "c" ["D"]; mkNote "D" "d" ["C"]]) as Hnone.
  rewrite H in Hnone. cbn [returned option_map] in Hnone.
  assert (Habsurd : Some (snd result) = None); [|discriminate Habsurd].
  apply Hnone; try reflexivity; try discriminate.
  apply list_elem_of_In. now left.
Qed.

(** C1, amended: in the scenario, [resolveNotePath] of root/A/B gives
    root/C/B; and in general, when the segments [accepted] were
    accepted, the next one, [candidate], is not a parent of the last of
    them, and taking first parents from the first parent of that note
    leads to root along [chain], the result is the ids of root, the
    chain and that first parent, in this order, followed by [accepted]
    as it stands, whatever the segments [rest] beyond the candidate
    are. *)
Theorem resolve_repair :
  (forall fuel,
      returned (resolveNotePath (S (S fuel)) (steady scenario_after) "root/A/B")
      = Some (Some "root/C/B")) /\
  (forall (fuel : nat) (cache : gmap string Note) (raw : string) (logErrors : bool)
          (accepted : list string) (candidate : string) (rest : list string)
          (child first : Note) (others chain : list Note),
      stripTabSuffix raw <> "" ->
      pathOf (stripTabSuffix raw) = accepted ++ candidate :: rest ->
      accepted <> [] ->
      chainUp cache accepted = true ->
      getNote cache (List.last accepted "") = Some child ->
      getParentNotes cache child = first :: others ->
      existsb (fun p => String.eqb (noteId p) candidate) (first :: others) = false ->
      firstParentsToRoot cache first chain = true ->
      length chain < fuel ->
      let prefix := rev (map noteId (first :: chain)) in
      hd "" prefix = "root" /\
      List.last prefix "" = noteId first /\
      returned (resolveNotePathToSegments fuel (steady cache) raw logErrors)
      = Some (Some (JsString.split "/" (JsString.join "/" prefix) ++ rev accepted)) /\
      returned (resolveNotePath fuel (steady cache) raw)
      = Some (Some (JsString.join "/"
                      (JsString.split "/" (JsString.join "/" prefix) ++ rev accepted))) /\
      (Forall (fun note => JsString.hasChar "/" (noteId note) = false) (first :: chain) ->
       returned (resolveNotePathToSegments fuel (steady cache) raw logErrors)
       = Some (Some (prefix ++ rev accepted)))).
Proof.
  split; [intros fuel; vm_compute; reflexivity|].
  intros fuel cache raw logErrors accepted candidate rest child first others chain
         Hne Hpath Hacc Hchain Hchild Hpar Hnone Hclimb Hfuel prefix.
  pose proof (getSomeNotePath_loop_climbs cache chain fuel [] first Hclimb Hfuel) as Hsome.
  cbn [app] in Hsome. fold prefix in Hsome.
  pose proof (firstParentsToRoot_root cache chain first Hclimb) as Hroot.
  fold prefix in Hroot.
  assert (Htruthy : JsString.truthy (JsString.join "/" prefix) = true).
  { destruct prefix as [|top below] eqn:E; [discriminate Hroot|].
    cbn [hd] in Hroot. rewrite Hroot. apply join_root_truthy. }
  assert (Hseg : forall le,
             returned (resolveNotePathToSegments fuel (steady cache) raw le)
             = Some (Some (JsString.split "/" (JsString.join "/" prefix) ++ rev accepted))).
  { intros le.
    rewrite (resolveNotePathToSegments_at_break fuel cache raw le accepted
               (candidate :: rest) Hne Hpath Hacc Hchain).
    apply (resolve_walk_repair fuel le (stripTabSuffix raw) cache _ candidate _ rest _
             child first others [] (JsString.join "/" prefix) Hchild Hpar Hnone Hsome
             Htruthy). }
  split; [exact Hroot|]. split; [apply last_rev_hd|].
  split; [apply Hseg|]. split; [now rewrite resolveNotePath_returned, Hseg|].
  intros Hslash. rewrite Hseg, (split_join "/"); [reflexivity| |].
  - intros Hnil. subst prefix. rewrite Hnil in Hroot. discriminate Hroot.
  - subst prefix. apply Forall_rev. now apply Forall_map.
Qed.

Lemma resolve_repair_witness :
  hd "" (rev (map noteId [mkNote "C" "c" ["D"]; mkNote "D" "d" ["root"];
                          mkNote "root" "root" []])) = "root" /\
  returned (resolveNotePathToSegments 3 (steady scenario_deep) "root/A/B" true)
  = Some (Some (["root"; "D"; "C"] ++ rev ["B"])).
Proof.
  pose proof (proj2 resolve_repair 3 scenario_deep "root/A/B" true
                ["B"] "A" ["root"]
                (mkNote "B" "b" ["C"]) (mkNote "C" "c" ["D"]) []
                [mkNote "D" "d" ["root"]; mkNote "root" "root" []]) as H.
  cbn zeta in H.
  specialize (H ltac:(discriminate) eq_refl ltac:(discriminate) eq_refl eq_refl eq_refl
                eq_refl eq_refl ltac:(cbn; lia)).
  destruct H as (Hroot & _ & _ & _ & Hplain).
  split; [exact Hroot|]. apply Hplain. repeat constructor.
Defined.

(** ** Which resolutions return *)





(** ** Where a returned sequence starts *)

(** X6: the root-first invariant outside the defect: over a cache
    in which root has no parent, a returned sequence ends with the
    target, the last segment of the input, and it starts at root unless
    the walk broke: the child-first segments [accepted] formed a chain,
    the next segment was not among the parents of the note of the last
    of them, [getSomeNotePath] found no path from the first of these
    parents, and the sequence is [accepted] reversed and no more. *)
Lemma resolveNotePathToSegments_root_first (fuel : nat) (cache : gmap string Note)
    (raw : string) (logErrors : bool) (segments : list string) :
  (forall parent, accepts cache "root" parent = false) ->
  returned (resolveNotePathToSegments fuel (steady cache) raw logErrors)
  = Some (Some segments) ->
  List.last segments "" = hd "" (pathOf (stripTabSuffix raw)) /\
  (hd "" segments = "root" \/
   exists accepted candidate beyond child first others diagnostics,
     pathOf (stripTabSuffix raw) = accepted ++ candidate :: beyond /\
     accepted <> [] /\
     chainUp cache accepted = true /\
     getNote cache (List.last accepted "") = Some child /\
     getParentNotes cache child = first :: others /\
     existsb (fun p => String.eqb (noteId p) candidate) (first :: others) = false /\
     getSomeNotePath fuel cache first = Some (diagnostics, None) /\
     segments = rev accepted).
Proof.
  intros Hroot H.
  assert (Hne : stripTabSuffix raw <> "").
  { intros Hempty. unfold resolveNotePathToSegments in H.
    rewrite returned_after, Hempty in H. discriminate H. }
  destruct (resolveNotePathToSegments_walk fuel (steady cache) raw logErrors Hne)
    as (target & up & Hpath & Hwalk).
  pose proof (pathOf_has_root (stripTabSuffix raw)) as Hin.
  rewrite Hwalk in H. rewrite Hpath in *. cbn [hd].
  destruct (resolve_walk fuel (steady cache) logErrors (stripTabSuffix raw) 0 up
              [target] (Some target)) as [[events result]|] eqn:Hrun; [|discriminate].
  assert (Hresult : result = Some segments) by (cbn in H; congruence). subst result.
  apply resolve_walk_outcome in Hrun
    as [(Hres & _ & Hchain)|(kept & cand & beyond & Hup & Hchain & [(_ & _ & Hres)|[(c & _ & _ & _ & Hres)|
         (child & first & others & d & r & Hchild & Hpar & Hnone & Hfb & _ & Hres)]])];
    try discriminate Hres;
    match type of Hres with
    | Some _ = Some (rev ?l) =>
        assert (Hsegments : segments = rev l) by congruence; clear Hres
    end.
  - split.
    + rewrite Hsegments. cbn [app rev]. apply last_last.
    + left. rewrite Hsegments, hd_rev_last. cbn [app].
      now apply (chainUp_root_last cache).
  - destruct r as [found|].
    + destruct (getSomeNotePath_loop_found cache fuel [] first d found Hfb)
        as [_ (ids & Hfound & _)].
      rewrite app_nil_r in Hfound.
      assert (Hfall : fallbackSegments (Some found)
                      = rev (JsString.split "/" (JsString.join "/" ("root" :: ids)))).
      { cbn [fallbackSegments]. now rewrite Hfound, join_root_truthy. }
      rewrite Hfall in Hsegments.
      assert (Hshape : segments
                       = JsString.split "/" (JsString.join "/" ("root" :: ids))
                         ++ rev kept ++ [target]).
      { rewrite Hsegments. cbn [app rev].
        now rewrite !rev_app_distr, rev_involutive, <- app_assoc. }
      split.
      * rewrite Hshape, !app_assoc. apply last_last.
      * left. rewrite Hshape.
        pose proof (hd_split_join_root ids) as Hhd.
        destruct (split_cons "/" (JsString.join "/" ("root" :: ids)))
          as (piece & pieces & E).
        rewrite E in *. exact Hhd.
    + cbn [fallbackSegments] in Hsegments. rewrite app_nil_r in Hsegments.
      split.
      * rewrite Hsegments. cbn [app rev]. apply last_last.
      * right. exists (target :: kept), cand, beyond, child, first, others, d.
        rewrite last_cons_default. subst up.
        repeat (split; [assumption || reflexivity || discriminate|]).
        exact Hsegments.
Qed.

Lemma resolveNotePathToSegments_root_first_witness :
  List.last ["B"] "" = hd "" (pathOf (stripTabSuffix "root/A/B")) /\
  (hd "" ["B"] = "root" \/
   exists accepted candidate beyond child first others diagnostics,
     pathOf (stripTabSuffix "root/A/B") = accepted ++ candidate :: beyond /\
     accepted <> [] /\
     chainUp scenario_orphaned accepted = true /\
     getNote scenario_orphaned (List.last accepted "") = Some child /\
     getParentNotes scenario_orphaned child = first :: others /\
     existsb (fun p => String.eqb (noteId p) candidate) (first :: others) = false /\
     getSomeNotePath 2 scenario_orphaned first = Some (diagnostics, None) /\
     ["B"] = rev accepted).
Proof.
  apply (resolveNotePathToSegments_root_first 2 scenario_orphaned "root/A/B" true).
  - intros parent. reflexivity.
  - reflexivity.
Defined.
